(** * Bounded step-count verifier for tinyscript: instrumentation and the box modality

    A shallow embedding of [runtime.py] (the instrumentation pass and the
    bounded check driver) and [symbolic.py] (the box transformer), with the
    properties of the design document proved or refuted over it.

    The repository's [tinyscript], [tinyscript_util] and [interpreter]
    modules and the z3 bindings are not among the sources.  The syntax
    trees are declared here as the sources use them, z3's expressions are
    a small term algebra with their standard meaning, and the solver and
    the formula simplifier are parameters of the sections below. *)

From Stdlib Require Import ZArith String List Bool Lia.
Import ListNotations.

Local Open Scope string_scope.
Local Open Scope Z_scope.

(** ** tinyscript syntax ([import tinyscript as tn]) *)

Module tn.

(** Modelled from the spec: the arithmetic expressions of the Program
    Model ([tinyscript.py] is missing).  [Const], [Var], [Difference] and
    [Sum] are the constructors the sources apply; [Product] completes the
    integer arithmetic. *)
Inductive Term : Type :=
| Const (val : Z)
| Var (name : string)
| Sum (left_term right_term : Term)
| Difference (left_term right_term : Term)
| Product (left_term right_term : Term).

(** Modelled from the spec: the boolean conditions of the Program Model.
    The sources apply [LtF] and [NotF]. *)
Inductive Formula : Type :=
| TrueC
| FalseC
| NotF (q : Formula)
| AndF (p q : Formula)
| OrF (p q : Formula)
| ImpliesF (p q : Formula)
| EqF (left_term right_term : Term)
| LtF (left_term right_term : Term).

(** Modelled from the spec: the program nodes, with the fields the
    [match] statements of the sources bind.  Python does not enforce the
    [tn.Prog] annotation, so both passes can be handed any object:
    [Other] stands for an object that matches none of the class
    patterns, named by its [repr]. *)
Inductive Prog : Type :=
| Skip
| Asgn (name : string) (e : Term)
| Seq (alpha beta : Prog)
| If (p : Formula) (alpha beta : Prog)
| While (q : Formula) (alpha : Prog)
| Output (e : Term)
| Abort
| Other (repr : string).

(** The trees built from the recognised node kinds only. *)
Fixpoint is_prog (alpha : Prog) : bool :=
  match alpha with
  | Skip | Asgn _ _ | Output _ | Abort => true
  | Seq a b | If _ a b => is_prog a && is_prog b
  | While _ a => is_prog a
  | Other _ => false
  end.

(** The leaf statements, each of which costs one step. *)
Definition is_leaf (alpha : Prog) : bool :=
  match alpha with
  | Skip | Asgn _ _ | Output _ | Abort => true
  | _ => false
  end.

(** Height of the syntax tree, a leaf counting one. *)
Fixpoint height (alpha : Prog) : nat :=
  match alpha with
  | Seq a b | If _ a b => S (Nat.max (height a) (height b))
  | While _ a => S (height a)
  | _ => 1%nat
  end.

End tn.

(** ** z3 expressions *)

Module z3.

(** Integer-sorted expressions: literals, constants named by a string
    ([z3.Int(name)]) and arithmetic. *)
Inductive ArithRef : Type :=
| IntVal (val : Z)
| Int (name : string)
| Add (a b : ArithRef)
| Sub (a b : ArithRef)
| Mul (a b : ArithRef).

(** Boolean-sorted expressions. *)
Inductive BoolRef : Type :=
| BoolVal (val : bool)
| Not (a : BoolRef)
| And (a b : BoolRef)
| Or (a b : BoolRef)
| Implies (a b : BoolRef)
| Eq (a b : ArithRef)
| Lt (a b : ArithRef).

(** The status of a [check]. *)
Inductive CheckSatResult : Type := sat | unsat | unknown.

Definition ArithRef_eq_dec (a b : ArithRef) : {a = b} + {a <> b}.
Proof. decide equality; [apply Z.eq_dec | apply string_dec]. Defined.

Definition BoolRef_eq_dec (a b : BoolRef) : {a = b} + {a <> b}.
Proof. decide equality; solve [apply Bool.bool_dec | apply ArithRef_eq_dec]. Defined.

(** [z3.substitute(t, *m)]: every occurrence in [t] of the first
    component of a pair of [m] is replaced by the second; the first pair
    that applies wins and a replaced term is not visited again.  The
    pairs [box] passes are integer-sorted. *)
Fixpoint replacement (t : ArithRef) (m : list (ArithRef * ArithRef)) : option ArithRef :=
  match m with
  | [] => None
  | (a, b) :: m' => if ArithRef_eq_dec t a then Some b else replacement t m'
  end.

Fixpoint substitute_arith (t : ArithRef) (m : list (ArithRef * ArithRef)) : ArithRef :=
  match replacement t m with
  | Some b => b
  | None =>
      match t with
      | Add a b => Add (substitute_arith a m) (substitute_arith b m)
      | Sub a b => Sub (substitute_arith a m) (substitute_arith b m)
      | Mul a b => Mul (substitute_arith a m) (substitute_arith b m)
      | _ => t
      end
  end.

Fixpoint substitute (t : BoolRef) (m : list (ArithRef * ArithRef)) : BoolRef :=
  match t with
  | BoolVal v => BoolVal v
  | Not a => Not (substitute a m)
  | And a b => And (substitute a m) (substitute b m)
  | Or a b => Or (substitute a m) (substitute b m)
  | Implies a b => Implies (substitute a m) (substitute b m)
  | Eq a b => Eq (substitute_arith a m) (substitute_arith b m)
  | Lt a b => Lt (substitute_arith a m) (substitute_arith b m)
  end.

(** Interpretations: an integer for every constant name. *)
Definition Interp : Type := string -> Z.

Fixpoint eval_arith (I : Interp) (t : ArithRef) : Z :=
  match t with
  | IntVal v => v
  | Int x => I x
  | Add a b => eval_arith I a + eval_arith I b
  | Sub a b => eval_arith I a - eval_arith I b
  | Mul a b => eval_arith I a * eval_arith I b
  end.

Fixpoint eval (I : Interp) (f : BoolRef) : bool :=
  match f with
  | BoolVal v => v
  | Not a => negb (eval I a)
  | And a b => eval I a && eval I b
  | Or a b => eval I a || eval I b
  | Implies a b => implb (eval I a) (eval I b)
  | Eq a b => eval_arith I a =? eval_arith I b
  | Lt a b => eval_arith I a <? eval_arith I b
  end.

Definition update (I : Interp) (x : string) (v : Z) : Interp :=
  fun y => if string_dec y x then v else I y.

(** Expressions without constants: their value needs no interpretation. *)
Fixpoint closed_arith (t : ArithRef) : bool :=
  match t with
  | IntVal _ => true
  | Int _ => false
  | Add a b | Sub a b | Mul a b => closed_arith a && closed_arith b
  end.

Fixpoint closed (f : BoolRef) : bool :=
  match f with
  | BoolVal _ => true
  | Not a => closed a
  | And a b | Or a b | Implies a b => closed a && closed b
  | Eq a b | Lt a b => closed_arith a && closed_arith b
  end.

End z3.

(** ** The encoder ([tinyscript_util]) *)

(** Modelled from the spec: [term_enc] of the Term/Formula Encoder, which
    maps program expressions to solver terms ([tinyscript_util.py] is
    missing). *)
Fixpoint term_enc (e : tn.Term) : z3.ArithRef :=
  match e with
  | tn.Const v => z3.IntVal v
  | tn.Var x => z3.Int x
  | tn.Sum l r => z3.Add (term_enc l) (term_enc r)
  | tn.Difference l r => z3.Sub (term_enc l) (term_enc r)
  | tn.Product l r => z3.Mul (term_enc l) (term_enc r)
  end.

(** Modelled from the spec: [fmla_enc] of the Term/Formula Encoder, which
    maps boolean conditions to solver formulas. *)
Fixpoint fmla_enc (p : tn.Formula) : z3.BoolRef :=
  match p with
  | tn.TrueC => z3.BoolVal true
  | tn.FalseC => z3.BoolVal false
  | tn.NotF q => z3.Not (fmla_enc q)
  | tn.AndF a b => z3.And (fmla_enc a) (fmla_enc b)
  | tn.OrF a b => z3.Or (fmla_enc a) (fmla_enc b)
  | tn.ImpliesF a b => z3.Implies (fmla_enc a) (fmla_enc b)
  | tn.EqF l r => z3.Eq (term_enc l) (term_enc r)
  | tn.LtF l r => z3.Lt (term_enc l) (term_enc r)
  end.

(** ** Exceptions *)

Inductive exception : Type :=
| TypeError (msg : string).

(** The outcome of a call that may raise. *)
Inductive outcome (A : Type) : Type :=
| Return (a : A)
| Raise (e : exception).

Arguments Return {A} a.
Arguments Raise {A} e.

Definition bind {A B : Type} (c : outcome A) (k : A -> outcome B) : outcome B :=
  match c with
  | Return a => k a
  | Raise e => Raise e
  end.

Notation "x <- c ;; k" := (bind c (fun x => k))
  (at level 61, c at next level, right associativity).

(** ** runtime.py: the instrumentation pass *)

Definition STEPS_LEFT : string := "#steps_left".

Definition ins_to_add : tn.Prog :=
  let decrementSteps :=
    tn.Asgn STEPS_LEFT (tn.Difference (tn.Var STEPS_LEFT) (tn.Const 1)) in
  decrementSteps.

(** [step_bound] is passed down unused.  The last line of the Python
    function, reached when no [case] matches, returns its argument. *)
Fixpoint add_instrumentation (alpha : tn.Prog) (step_bound : Z) : tn.Prog :=
  match alpha with
  | tn.Asgn name e => tn.Seq ins_to_add alpha
  | tn.Skip => tn.Seq ins_to_add alpha
  | tn.Output e => tn.Seq ins_to_add alpha
  | tn.Abort => tn.Seq ins_to_add alpha
  | tn.Seq alpha_p beta_p =>
      let ins_alpha := add_instrumentation alpha_p step_bound in
      let ins_beta := add_instrumentation beta_p step_bound in
      tn.Seq ins_alpha ins_beta
  | tn.If p alpha_p beta_p =>
      let ins_alpha := add_instrumentation alpha_p step_bound in
      let ins_beta := add_instrumentation beta_p step_bound in
      tn.If p ins_alpha ins_beta
  | tn.While q alpha_p =>
      let ins_alpha := add_instrumentation alpha_p step_bound in
      tn.While q ins_alpha
  | tn.Other _ => alpha
  end.

Definition instrument (alpha : tn.Prog) (step_bound : Z) : tn.Prog :=
  let initializeStepsLeft := tn.Asgn STEPS_LEFT (tn.Const step_bound) in
  let ins_alpha := add_instrumentation alpha step_bound in
  tn.Seq initializeStepsLeft ins_alpha.

(** ** symbolic.py: the box transformer *)

Inductive Result : Type := Satisfies | Violates | Unknown.

(** A call that may also exhaust the recursion budget of the model. *)
Definition bind_fuel {A B : Type} (c : option (outcome A))
    (k : A -> option (outcome B)) : option (outcome B) :=
  match c with
  | Some (Return a) => k a
  | Some (Raise e) => Some (Raise e)
  | None => None
  end.

Notation "x <-? c ;; k" := (bind_fuel c (fun x => k))
  (at level 61, c at next level, right associativity).

Section symbolic.

(** Modelled from the spec: the Encoder's [simplify(formula)], which the
    [@simplify] decorator of [tinyscript_util] applies to what the
    decorated function returns.  It is a parameter: the properties below
    state what they need of it. *)
Variable z3_simplify : z3.BoolRef -> z3.BoolRef.

(** The decorator's wrapper around one call: the result of the body is
    simplified, an exception passes through. *)
Definition simplify (body : outcome z3.BoolRef) : outcome z3.BoolRef :=
  r <- body ;; Return (z3_simplify r).

(** The formula returned when the unrolling budget is used up. *)
Definition depth_exceeded (depth_exceed_strict : bool) : z3.BoolRef :=
  if depth_exceed_strict then z3.BoolVal false else z3.BoolVal true.

(** [box] as written: [fuel] bounds the depth of the recursion (one unit
    per call, [None] when it runs out), [max_depth] is the Python
    integer.  The name [box] is bound to the decorated function, so the
    recursive calls return simplified formulas too.  None of the
    recursive calls passes [depth_exceed_strict]: below the root the
    flag is at its default, [True].  Python evaluates the inner call of
    the [Seq] case first; in the [If] case the two calls run left to
    right. *)
Fixpoint box_fuel (fuel : nat) (alpha : tn.Prog) (postcondition : z3.BoolRef)
    (max_depth : Z) (depth_exceed_strict : bool) : option (outcome z3.BoolRef) :=
  match fuel with
  | O => None
  | S fuel' =>
      option_map simplify
        (if max_depth <? 1 then
           Some (Return (depth_exceeded depth_exceed_strict))
         else
           match alpha with
           | tn.Skip => Some (Return postcondition)
           | tn.Asgn name e =>
               Some (Return (z3.substitute postcondition
                               [(term_enc (tn.Var name), term_enc e)]))
           | tn.Seq alpha_p beta_p =>
               inner <-? box_fuel fuel' beta_p postcondition max_depth true ;;
               box_fuel fuel' alpha_p inner max_depth true
           | tn.If q alpha_p beta_p =>
               a <-? box_fuel fuel' alpha_p postcondition max_depth true ;;
               b <-? box_fuel fuel' beta_p postcondition max_depth true ;;
               Some (Return (z3.And (z3.Implies (fmla_enc q) a)
                                    (z3.Implies (fmla_enc (tn.NotF q)) b)))
           | tn.While q alpha_p =>
               box_fuel fuel'
                 (tn.If q (tn.Seq alpha_p alpha) (tn.Asgn "x" (tn.Var "x")))
                 postcondition (max_depth - 1) true
           | tn.Output e => Some (Return postcondition)
           | tn.Abort => Some (Return postcondition)
           | tn.Other repr => Some (Raise (TypeError ("box got " ++ repr ++ ", not Prog")))
           end)
  end.

(** The same function without a budget: the outer recursion is on the
    number of unrollings left, the inner one on the program, which is how
    the Python recursion is well-founded.  [box_depth 0] is the
    [max_depth < 1] exit, the only place where the flag is read.  The
    inner recursion stays at a depth of at least [1], where the flag is
    not read, so it carries none; the call for a loop, one unrolling
    down, has the default [True]. *)
Fixpoint box_depth (unrollings : nat) (depth_exceed_strict : bool)
    (alpha : tn.Prog) (postcondition : z3.BoolRef) {struct unrollings}
    : outcome z3.BoolRef :=
  match unrollings with
  | O => simplify (Return (depth_exceeded depth_exceed_strict))
  | S unrollings' =>
      (fix go (alpha : tn.Prog) (postcondition : z3.BoolRef) {struct alpha}
         : outcome z3.BoolRef :=
         simplify
           match alpha with
           | tn.Skip => Return postcondition
           | tn.Asgn name e =>
               Return (z3.substitute postcondition
                         [(term_enc (tn.Var name), term_enc e)])
           | tn.Seq alpha_p beta_p =>
               inner <- go beta_p postcondition ;; go alpha_p inner
           | tn.If q alpha_p beta_p =>
               a <- go alpha_p postcondition ;;
               b <- go beta_p postcondition ;;
               Return (z3.And (z3.Implies (fmla_enc q) a)
                              (z3.Implies (fmla_enc (tn.NotF q)) b))
           | tn.While q alpha_p =>
               box_depth unrollings' true
                 (tn.If q (tn.Seq alpha_p alpha) (tn.Asgn "x" (tn.Var "x")))
                 postcondition
           | tn.Output e => Return postcondition
           | tn.Abort => Return postcondition
           | tn.Other repr => Raise (TypeError ("box got " ++ repr ++ ", not Prog"))
           end) alpha postcondition
  end.

Definition box (alpha : tn.Prog) (postcondition : z3.BoolRef)
    (max_depth : Z) (depth_exceed_strict : bool) : outcome z3.BoolRef :=
  box_depth (Z.to_nat max_depth) depth_exceed_strict alpha postcondition.

(** ** runtime.py: the bounded check *)

(** Modelled from the spec: the solver interface [checkSat(formulas,
    timeoutSeconds) -> (status, model?)] of [tinyscript_util.check_sat].
    A model lists values for constants. *)
Definition ModelRef : Type := list (string * Z).

Variable check_sat : list z3.BoolRef -> Z -> z3.CheckSatResult * option ModelRef.

Definition symbolic_check (alpha : tn.Prog) (step_bound max_depth timeout : Z)
    : outcome Result :=
  let alpha_p := instrument alpha step_bound in
  let postcondition := tn.LtF (tn.Const (-1)) (tn.Var STEPS_LEFT) in
  weakest_pre <- box alpha_p (fmla_enc postcondition) max_depth true ;;
  let (res, model) := check_sat [z3.Not weakest_pre] timeout in
  match res with
  | z3.unsat => Return Satisfies
  | _ => Return Violates
  end.

End symbolic.

(** The postcondition of the check: the counter is above [-1]. *)
Definition counter_not_negative : z3.BoolRef :=
  fmla_enc (tn.LtF (tn.Const (-1)) (tn.Var STEPS_LEFT)).

(** The status of the one solver call [symbolic_check] makes. *)
Definition check_status (simp : z3.BoolRef -> z3.BoolRef)
    (solver : list z3.BoolRef -> Z -> z3.CheckSatResult * option ModelRef)
    (alpha : tn.Prog) (step_bound max_depth timeout : Z)
    : outcome z3.CheckSatResult :=
  weakest_pre <- box simp (instrument alpha step_bound) counter_not_negative
                   max_depth true ;;
  Return (fst (solver [z3.Not weakest_pre] timeout)).

(** The program [if (x*x*x + y*y*y + z*z*z == 114) { skip; skip } else
    { skip }]: whether it can take two steps is whether 114 is a sum of
    three cubes. *)
Definition three_cubes : tn.Prog :=
  let cube v := tn.Product (tn.Var v) (tn.Product (tn.Var v) (tn.Var v)) in
  tn.If (tn.EqF (tn.Sum (cube "x") (tn.Sum (cube "y") (cube "z"))) (tn.Const 114))
    (tn.Seq tn.Skip tn.Skip)
    tn.Skip.

(** The program [x := 3; while (0 < x) { x := x - 1 }]. *)
Definition countdown : tn.Prog :=
  tn.Seq (tn.Asgn "x" (tn.Const 3))
    (tn.While (tn.LtF (tn.Const 0) (tn.Var "x"))
       (tn.Asgn "x" (tn.Difference (tn.Var "x") (tn.Const 1)))).

(** A formula is satisfiable when some interpretation makes it true. *)
Definition satisfiable (f : z3.BoolRef) : Prop :=
  exists I, z3.eval I f = true.

(** A rewriting that keeps satisfiability and no more: it turns the
    postcondition of the check, which is satisfiable, into [True]. *)
Definition forgetful_simplify (f : z3.BoolRef) : z3.BoolRef :=
  if z3.BoolRef_eq_dec f counter_not_negative then z3.BoolVal true else f.

(** ** The rewrite the design document describes *)

(** The decrement of the counter, [Assign(stepCounterName, counter - 1)]. *)
Definition decrementCounter : tn.Prog :=
  tn.Asgn STEPS_LEFT (tn.Difference (tn.Var STEPS_LEFT) (tn.Const 1)).

(** The rewrite [r] in the words of the design document: a leaf statement
    ([Skip], [Assign], [Output], [Abort]) becomes [Seq(decrementCounter,
    leaf)]; [Seq], [If] and [While] keep their constructor over the
    rewritten substatements, with no counter logic of their own; any
    other node is outside its domain. *)
Fixpoint leaf_rewrite (alpha : tn.Prog) : option tn.Prog :=
  match alpha with
  | tn.Skip | tn.Asgn _ _ | tn.Output _ | tn.Abort =>
      Some (tn.Seq decrementCounter alpha)
  | tn.Seq a b =>
      match leaf_rewrite a, leaf_rewrite b with
      | Some a', Some b' => Some (tn.Seq a' b')
      | _, _ => None
      end
  | tn.If c a b =>
      match leaf_rewrite a, leaf_rewrite b with
      | Some a', Some b' => Some (tn.If c a' b')
      | _, _ => None
      end
  | tn.While c a =>
      match leaf_rewrite a with
      | Some a' => Some (tn.While c a')
      | None => None
      end
  | tn.Other _ => None
  end.

(** ** Execution *)

(** Modelled from the spec: the value of an expression in a state
    (the interpreter is not among the sources). *)
Fixpoint eval_term (I : string -> Z) (e : tn.Term) : Z :=
  match e with
  | tn.Const v => v
  | tn.Var x => I x
  | tn.Sum l r => eval_term I l + eval_term I r
  | tn.Difference l r => eval_term I l - eval_term I r
  | tn.Product l r => eval_term I l * eval_term I r
  end.

(** Modelled from the spec: the truth of a condition in a state. *)
Fixpoint eval_fmla (I : string -> Z) (p : tn.Formula) : bool :=
  match p with
  | tn.TrueC => true
  | tn.FalseC => false
  | tn.NotF q => negb (eval_fmla I q)
  | tn.AndF a b => eval_fmla I a && eval_fmla I b
  | tn.OrF a b => eval_fmla I a || eval_fmla I b
  | tn.ImpliesF a b => implb (eval_fmla I a) (eval_fmla I b)
  | tn.EqF l r => eval_term I l =? eval_term I r
  | tn.LtF l r => eval_term I l <? eval_term I r
  end.

(** The interpreter's state: the variables, what was output, whether the
    run was aborted, and the number of leaf statements executed. *)
Record State : Type := mkState {
  variables : string -> Z;
  output : list Z;
  aborted : bool;
  steps : nat
}.

Definition tick (s : State) : State :=
  mkState (variables s) (output s) (aborted s) (S (steps s)).

Definition assign (x : string) (v : Z) (s : State) : State :=
  mkState (z3.update (variables s) x v) (output s) (aborted s) (steps s).

Definition emit (v : Z) (s : State) : State :=
  mkState (variables s) (output s ++ [v]) (aborted s) (steps s).

Definition abort (s : State) : State :=
  mkState (variables s) (output s) true (steps s).

Definition initial (vars : string -> Z) : State := mkState vars [] false 0.

(** Modelled from the spec: the direct interpreter [interpreter.exc],
    which is not among the sources.  Each leaf statement is one step:
    [Skip] changes nothing, [Asgn] updates one variable, [Output] appends
    a value to the output, [Abort] stops the run; [Seq], [If] and [While]
    cost nothing themselves.  [fuel] bounds the nesting of loop
    iterations and is not touched by anything else, [None] is a run that
    needs more of it or meets a node that is no program. *)
Fixpoint exc (fuel : nat) (alpha : tn.Prog) (state : State) {struct fuel}
    : option State :=
  (fix go (alpha : tn.Prog) (state : State) {struct alpha} : option State :=
     if aborted state then Some state
     else
       match alpha with
       | tn.Skip => Some (tick state)
       | tn.Asgn name e =>
           Some (tick (assign name (eval_term (variables state) e) state))
       | tn.Output e =>
           Some (tick (emit (eval_term (variables state) e) state))
       | tn.Abort => Some (tick (abort state))
       | tn.Seq alpha_p beta_p =>
           match go alpha_p state with
           | Some state' => go beta_p state'
           | None => None
           end
       | tn.If p alpha_p beta_p =>
           if eval_fmla (variables state) p then go alpha_p state
           else go beta_p state
       | tn.While q alpha_p =>
           if eval_fmla (variables state) q then
             match fuel with
             | O => None
             | S fuel' =>
                 match go alpha_p state with
                 | Some state' => exc fuel' alpha state'
                 | None => None
                 end
             end
           else Some state
       | tn.Other _ => None
       end) alpha state.

(** Whether a name occurs in an expression, a condition, a program. *)
Fixpoint term_mentions (x : string) (e : tn.Term) : bool :=
  match e with
  | tn.Const _ => false
  | tn.Var y => if string_dec y x then true else false
  | tn.Sum l r | tn.Difference l r | tn.Product l r =>
      term_mentions x l || term_mentions x r
  end.

Fixpoint fmla_mentions (x : string) (p : tn.Formula) : bool :=
  match p with
  | tn.TrueC | tn.FalseC => false
  | tn.NotF q => fmla_mentions x q
  | tn.AndF a b | tn.OrF a b | tn.ImpliesF a b =>
      fmla_mentions x a || fmla_mentions x b
  | tn.EqF l r | tn.LtF l r => term_mentions x l || term_mentions x r
  end.

Fixpoint mentions (x : string) (alpha : tn.Prog) : bool :=
  match alpha with
  | tn.Skip | tn.Abort | tn.Other _ => false
  | tn.Asgn y e => (if string_dec y x then true else false) || term_mentions x e
  | tn.Output e => term_mentions x e
  | tn.Seq a b => mentions x a || mentions x b
  | tn.If p a b => fmla_mentions x p || mentions x a || mentions x b
  | tn.While q a => fmla_mentions x q || mentions x a
  end.

(** What the instrumented run and the original run have in common: the
    variables other than the counter, the output and the abort flag; and
    the counter of the instrumented run is [k] less the number of leaf
    statements the original run has executed. *)
Definition agree_off_counter (k : Z) (s s' : State) : Prop :=
  (forall x, x <> STEPS_LEFT -> variables s' x = variables s x) /\
  output s' = output s /\
  aborted s' = aborted s /\
  variables s' STEPS_LEFT = k - Z.of_nat (steps s).

(** Two runs end alike: both results are there and agree, or both are
    missing. *)
Definition runs_agree (k : Z) (r r' : option State) : Prop :=
  match r, r' with
  | Some s, Some s' => agree_off_counter k s s'
  | None, None => True
  | _, _ => False
  end.

(** ** A simplifier and a solver to run the checker with *)

(** Constant folding over z3 expressions, bottom-up: one simplifier that
    meets what the properties below ask of [z3_simplify]. *)
Module Fold.

Definition mkAdd (a b : z3.ArithRef) : z3.ArithRef :=
  match a, b with
  | z3.IntVal x, z3.IntVal y => z3.IntVal (x + y)
  | _, _ => z3.Add a b
  end.

Definition mkSub (a b : z3.ArithRef) : z3.ArithRef :=
  match a, b with
  | z3.IntVal x, z3.IntVal y => z3.IntVal (x - y)
  | _, _ => z3.Sub a b
  end.

Definition mkMul (a b : z3.ArithRef) : z3.ArithRef :=
  match a, b with
  | z3.IntVal x, z3.IntVal y => z3.IntVal (x * y)
  | _, _ => z3.Mul a b
  end.

Fixpoint fold_arith (t : z3.ArithRef) : z3.ArithRef :=
  match t with
  | z3.Add a b => mkAdd (fold_arith a) (fold_arith b)
  | z3.Sub a b => mkSub (fold_arith a) (fold_arith b)
  | z3.Mul a b => mkMul (fold_arith a) (fold_arith b)
  | _ => t
  end.

Definition mkNot (a : z3.BoolRef) : z3.BoolRef :=
  match a with
  | z3.BoolVal v => z3.BoolVal (negb v)
  | _ => z3.Not a
  end.

Definition mkAnd (a b : z3.BoolRef) : z3.BoolRef :=
  match a, b with
  | z3.BoolVal true, _ => b
  | z3.BoolVal false, _ => z3.BoolVal false
  | _, z3.BoolVal true => a
  | _, z3.BoolVal false => z3.BoolVal false
  | _, _ => z3.And a b
  end.

Definition mkOr (a b : z3.BoolRef) : z3.BoolRef :=
  match a, b with
  | z3.BoolVal true, _ => z3.BoolVal true
  | z3.BoolVal false, _ => b
  | _, z3.BoolVal true => z3.BoolVal true
  | _, z3.BoolVal false => a
  | _, _ => z3.Or a b
  end.

Definition mkImplies (a b : z3.BoolRef) : z3.BoolRef :=
  match a, b with
  | z3.BoolVal true, _ => b
  | z3.BoolVal false, _ => z3.BoolVal true
  | _, z3.BoolVal true => z3.BoolVal true
  | _, _ => z3.Implies a b
  end.

Definition mkEq (a b : z3.ArithRef) : z3.BoolRef :=
  match a, b with
  | z3.IntVal x, z3.IntVal y => z3.BoolVal (x =? y)
  | _, _ => z3.Eq a b
  end.

Definition mkLt (a b : z3.ArithRef) : z3.BoolRef :=
  match a, b with
  | z3.IntVal x, z3.IntVal y => z3.BoolVal (x <? y)
  | _, _ => z3.Lt a b
  end.

Fixpoint fold (f : z3.BoolRef) : z3.BoolRef :=
  match f with
  | z3.BoolVal v => z3.BoolVal v
  | z3.Not a => mkNot (fold a)
  | z3.And a b => mkAnd (fold a) (fold b)
  | z3.Or a b => mkOr (fold a) (fold b)
  | z3.Implies a b => mkImplies (fold a) (fold b)
  | z3.Eq a b => mkEq (fold_arith a) (fold_arith b)
  | z3.Lt a b => mkLt (fold_arith a) (fold_arith b)
  end.

End Fold.

(** A solver that decides the queries without constants by evaluating
    them and answers [unknown] to every other query. *)
Definition ground_check_sat (fs : list z3.BoolRef) (timeout : Z)
    : z3.CheckSatResult * option ModelRef :=
  if forallb z3.closed fs then
    if forallb (z3.eval (fun _ => 0)) fs then (z3.sat, Some [])
    else (z3.unsat, None)
  else (z3.unknown, None).

(** A solver whose every call runs into the timeout. *)
Definition timed_out_check_sat (fs : list z3.BoolRef) (timeout : Z)
    : z3.CheckSatResult * option ModelRef :=
  (z3.unknown, None).

(** What the properties ask of the simplifier: it is idempotent, and it
    keeps the value of a formula under every interpretation. *)
Definition idempotent (simp : z3.BoolRef -> z3.BoolRef) : Prop :=
  forall f, simp (simp f) = simp f.

Definition equivalence_preserving (simp : z3.BoolRef -> z3.BoolRef) : Prop :=
  forall I f, z3.eval I (simp f) = z3.eval I f.

(** What they ask of the solver: an [unsat] answer is right. *)
Definition unsat_sound
    (solver : list z3.BoolRef -> Z -> z3.CheckSatResult * option ModelRef) : Prop :=
  forall fs timeout,
    fst (solver fs timeout) = z3.unsat ->
    forall I, forallb (z3.eval I) fs = false.

(** ** The bounded runs that [box] describes *)

(** A run of a program over the solver's interpretations, with the
    unrolling budget accounted for as [box] does: the budget is tested
    at every node, a loop passes one unit less to its unrolling, and a
    run that meets an exhausted budget has no result.  A state is an
    interpretation with the number of leaf statements passed so far.
    [Output] and [Abort] change nothing, as in [box]; expressions and
    conditions are read through the encoder. *)
Fixpoint unroll (budget : nat) (alpha : tn.Prog) (st : z3.Interp * nat)
    {struct budget} : option (z3.Interp * nat) :=
  match budget with
  | O => None
  | S budget' =>
      (fix go (alpha : tn.Prog) (st : z3.Interp * nat) {struct alpha}
         : option (z3.Interp * nat) :=
         match alpha with
         | tn.Skip | tn.Output _ | tn.Abort => Some (fst st, S (snd st))
         | tn.Asgn name e =>
             Some (z3.update (fst st) name (z3.eval_arith (fst st) (term_enc e)),
                   S (snd st))
         | tn.Seq alpha_p beta_p =>
             match go alpha_p st with
             | Some st' => go beta_p st'
             | None => None
             end
         | tn.If q alpha_p beta_p =>
             if z3.eval (fst st) (fmla_enc q) then go alpha_p st else go beta_p st
         | tn.While q alpha_p =>
             match budget' with
             | O => None
             | S _ =>
                 if z3.eval (fst st) (fmla_enc q) then
                   match unroll budget' alpha_p st with
                   | Some st' => unroll budget' alpha st'
                   | None => None
                   end
                 else Some st
             end
         | tn.Other _ => None
         end) alpha st
  end.

(** What the result of a run means for a postcondition: its value in
    the final state, or the depth-exceeded constant when the budget did
    not suffice. *)
Definition holds_after (strict : bool) (P : z3.BoolRef)
    (r : option (z3.Interp * nat)) : bool :=
  match r with
  | Some st => z3.eval (fst st) P
  | None => negb strict
  end.

(** The state of a run of the instrumented program against that of the
    original: the same values off the counter, and the counter at [k]
    less the leaf statements the original has passed. *)
Definition counter_tracks (k : Z) (st st' : z3.Interp * nat) : Prop :=
  (forall x, x <> STEPS_LEFT -> fst st' x = fst st x) /\
  fst st' STEPS_LEFT = k - Z.of_nat (snd st).

Definition runs_track (k : Z) (r r' : option (z3.Interp * nat)) : Prop :=
  match r, r' with
  | Some st, Some st' => counter_tracks k st st'
  | None, None => True
  | _, _ => False
  end.

(** Programs without a loop. *)
Fixpoint loop_free (alpha : tn.Prog) : bool :=
  match alpha with
  | tn.Seq a b | tn.If _ a b => loop_free a && loop_free b
  | tn.While _ _ => false
  | _ => true
  end.

(** The number of leaf statements and of loops in a program. *)
Fixpoint leaves (alpha : tn.Prog) : nat :=
  match alpha with
  | tn.Skip | tn.Asgn _ _ | tn.Output _ | tn.Abort => 1
  | tn.Seq a b | tn.If _ a b => leaves a + leaves b
  | tn.While _ a => leaves a
  | tn.Other _ => 0
  end.

Fixpoint loops (alpha : tn.Prog) : nat :=
  match alpha with
  | tn.Seq a b | tn.If _ a b => loops a + loops b
  | tn.While _ a => S (loops a)
  | _ => 0
  end.

(** ** runtime.py: the script *)

(** [str.endswith]. *)
Definition endswith (s suffix : string) : bool :=
  let n := String.length s in
  let m := String.length suffix in
  (m <=? n)%nat && String.eqb (substring (n - m) m s) suffix.

(** The directory entries the script runs: those whose path ends in
    [tinyscript]. *)
Definition is_test (test_file : string * string) : bool :=
  endswith (fst test_file) "tinyscript".

(** The three counters of the script. *)
Record Tally : Type := mkTally {
  passed : nat;
  violate : nat;
  unknown : nat
}.

Section script.

Variable z3_simplify : z3.BoolRef -> z3.BoolRef.
Variable check_sat : list z3.BoolRef -> Z -> z3.CheckSatResult * option ModelRef.

(** The parser of the repository is not among the sources; it may
    raise. *)
Variable parse : string -> outcome tn.Prog.

(** One pass of the loop of the script over a directory entry, given as
    its path and its contents: an entry whose path does not end in
    [tinyscript] is skipped; the others are parsed and checked with step
    bound [100] and the defaults [max_depth=3], [timeout=1], and the
    verdict is counted.  Printing is left out. *)
Definition count_file (tally : Tally) (test_file : string * string) : outcome Tally :=
  if negb (endswith (fst test_file) "tinyscript") then Return tally
  else
    prog <- parse (snd test_file) ;;
    res <- symbolic_check z3_simplify check_sat prog 100 3 1 ;;
    Return match res with
           | Satisfies => mkTally (S (passed tally)) (violate tally) (unknown tally)
           | Violates => mkTally (passed tally) (S (violate tally)) (unknown tally)
           | Unknown => mkTally (passed tally) (violate tally) (S (unknown tally))
           end.

(** The loop from given counters; an exception ends it. *)
Fixpoint count_files (tally : Tally) (files : list (string * string)) : outcome Tally :=
  match files with
  | [] => Return tally
  | test_file :: rest =>
      tally' <- count_file tally test_file ;; count_files tally' rest
  end.

(** The script from the point where the directory is known to exist. *)
Definition main (files : list (string * string)) : outcome Tally :=
  count_files (mkTally 0 0 0) files.

End script.

(** * Properties *)

(** ** The instrumentation pass *)

Lemma add_instrumentation_leaf_rewrite (alpha : tn.Prog) (step_bound : Z) :
  tn.is_prog alpha = true ->
  leaf_rewrite alpha = Some (add_instrumentation alpha step_bound).
Proof.
  induction alpha as [| x e | a IHa b IHb | c a IHa b IHb | c a IHa | e | | r];
    simpl; intros Hp; try reflexivity; try discriminate.
  - apply andb_true_iff in Hp as [Ha Hb].
    now rewrite (IHa Ha), (IHb Hb).
  - apply andb_true_iff in Hp as [Ha Hb].
    now rewrite (IHa Ha), (IHb Hb).
  - now rewrite (IHa Hp).
Qed.

(** C4.  On a program built from the recognised node kinds,
    [instrument program n] is [Seq (Asgn counter n) r] where [r] is the
    design document's rewrite of the program: every leaf statement
    preceded by the decrement of the counter, every [Seq], [If] and
    [While] kept over its rewritten substatements. *)
Theorem instrument_is_leaf_rewrite (program : tn.Prog) (n : Z) :
  tn.is_prog program = true ->
  exists r,
    leaf_rewrite program = Some r /\
    instrument program n = tn.Seq (tn.Asgn STEPS_LEFT (tn.Const n)) r.
Proof.
  intros Hp. exists (add_instrumentation program n). split.
  - now apply add_instrumentation_leaf_rewrite.
  - reflexivity.
Qed.

Lemma instrument_is_leaf_rewrite_witness :
  exists r,
    leaf_rewrite (tn.Seq (tn.Asgn "x" (tn.Const 3))
                    (tn.While (tn.LtF (tn.Const 0) (tn.Var "x")) tn.Abort)) = Some r /\
    instrument (tn.Seq (tn.Asgn "x" (tn.Const 3))
                  (tn.While (tn.LtF (tn.Const 0) (tn.Var "x")) tn.Abort)) 100
    = tn.Seq (tn.Asgn STEPS_LEFT (tn.Const 100)) r.
Proof.
  apply (instrument_is_leaf_rewrite
           (tn.Seq (tn.Asgn "x" (tn.Const 3))
              (tn.While (tn.LtF (tn.Const 0) (tn.Var "x")) tn.Abort)) 100).
  reflexivity.
Defined.

Lemma add_instrumentation_is_prog (alpha : tn.Prog) (step_bound : Z) :
  tn.is_prog (add_instrumentation alpha step_bound) = tn.is_prog alpha.
Proof.
  induction alpha; simpl; try reflexivity; congruence.
Qed.

Lemma instrument_is_prog (alpha : tn.Prog) (step_bound : Z) :
  tn.is_prog (instrument alpha step_bound) = tn.is_prog alpha.
Proof. apply add_instrumentation_is_prog. Qed.

(** C8.  What the pass does with a node of no recognised kind: it
    returns the node as it is, at the root and below any structural
    node, where [box] raises [TypeError] on the same node. *)
Theorem add_instrumentation_passes_unrecognized (repr : string) (q : tn.Formula)
    (step_bound : Z) (simp : z3.BoolRef -> z3.BoolRef) (P : z3.BoolRef) :
  add_instrumentation (tn.Other repr) step_bound = tn.Other repr /\
  add_instrumentation (tn.While q (tn.Other repr)) step_bound
    = tn.While q (tn.Other repr) /\
  box simp (tn.Other repr) P 1 true
    = Raise (TypeError ("box got " ++ repr ++ ", not Prog")).
Proof. repeat split. Qed.

(** ** The box transformer *)

Section box_properties.

Variable simp : z3.BoolRef -> z3.BoolRef.

(** The defining equation of [box], in the shape of the Python body. *)
Lemma box_eq (alpha : tn.Prog) (P : z3.BoolRef) (max_depth : Z) (strict : bool) :
  box simp alpha P max_depth strict =
  simplify simp
    (if max_depth <? 1 then Return (depth_exceeded strict)
     else
       match alpha with
       | tn.Skip => Return P
       | tn.Asgn name e =>
           Return (z3.substitute P [(term_enc (tn.Var name), term_enc e)])
       | tn.Seq alpha_p beta_p =>
           inner <- box simp beta_p P max_depth true ;;
           box simp alpha_p inner max_depth true
       | tn.If q alpha_p beta_p =>
           a <- box simp alpha_p P max_depth true ;;
           b <- box simp beta_p P max_depth true ;;
           Return (z3.And (z3.Implies (fmla_enc q) a)
                          (z3.Implies (fmla_enc (tn.NotF q)) b))
       | tn.While q alpha_p =>
           box simp
             (tn.If q (tn.Seq alpha_p alpha) (tn.Asgn "x" (tn.Var "x")))
             P (max_depth - 1) true
       | tn.Output e => Return P
       | tn.Abort => Return P
       | tn.Other repr => Raise (TypeError ("box got " ++ repr ++ ", not Prog"))
       end).
Proof.
  unfold box. destruct (Z.ltb_spec max_depth 1) as [Hlt | Hge].
  - replace (Z.to_nat max_depth) with 0%nat by lia. reflexivity.
  - replace (Z.to_nat max_depth) with (S (Z.to_nat (max_depth - 1))) by lia.
    destruct alpha; reflexivity.
Qed.

(** From a depth of [1] on the flag is not read: the recursive calls
    do not pass it on. *)
Lemma box_flag_at_root (alpha : tn.Prog) (P : z3.BoolRef) (max_depth : Z)
    (strict strict' : bool) :
  1 <= max_depth ->
  box simp alpha P max_depth strict = box simp alpha P max_depth strict'.
Proof.
  intros Hd. unfold box.
  replace (Z.to_nat max_depth) with (S (Z.to_nat (max_depth - 1))) by lia.
  reflexivity.
Qed.

Lemma box_depth_exceeded (alpha : tn.Prog) (P : z3.BoolRef) (max_depth : Z)
    (strict : bool) :
  max_depth < 1 ->
  box simp alpha P max_depth strict = Return (simp (depth_exceeded strict)).
Proof.
  intros H. rewrite box_eq.
  destruct (Z.ltb_spec max_depth 1); [reflexivity | lia].
Qed.

Lemma simplify_simplify (c : outcome z3.BoolRef) :
  idempotent simp -> simplify simp (simplify simp c) = simplify simp c.
Proof.
  intros Hi. destruct c as [r | e]; simpl; [now rewrite Hi | reflexivity].
Qed.

(** Every result of [box] went through the simplifier last. *)
Lemma simplify_box (alpha : tn.Prog) (P : z3.BoolRef) (max_depth : Z) (strict : bool) :
  idempotent simp ->
  simplify simp (box simp alpha P max_depth strict) = box simp alpha P max_depth strict.
Proof.
  intros Hi. rewrite box_eq. now apply simplify_simplify.
Qed.





End box_properties.

(** C2, as the code has it.  [box Skip P maxDepth] is the simplified
    [P] when [maxDepth >= 1] and the simplified depth-exceeded constant
    when [maxDepth < 1]: the test of the budget comes before the case
    analysis, so it applies to a loop-free node too. *)
Theorem box_skip (simp : z3.BoolRef -> z3.BoolRef) (P : z3.BoolRef)
    (max_depth : Z) (strict : bool) :
  box simp tn.Skip P max_depth strict =
  Return (simp (if max_depth <? 1 then depth_exceeded strict else P)).
Proof.
  rewrite box_eq. now destruct (max_depth <? 1).
Qed.

(** C2 as stated fails at [maxDepth = 0]: with the simplifier that
    changes nothing, and with constant folding, [box Skip True 0] is
    [False]. *)
Lemma box_skip_depth_zero_counterexample :
  box (fun f => f) tn.Skip (z3.BoolVal true) 0 true = Return (z3.BoolVal false) /\
  box Fold.fold tn.Skip (z3.BoolVal true) 0 true = Return (z3.BoolVal false) /\
  Return (z3.BoolVal false) <> Return (z3.BoolVal true).
Proof. repeat split. discriminate. Qed.

(** C6.  [box (Seq a b) P maxDepth] is [box a (box b P maxDepth)
    maxDepth], the inner call first, for every [maxDepth], given that
    simplifying twice is simplifying once. *)
Theorem box_seq (simp : z3.BoolRef -> z3.BoolRef) (a b : tn.Prog)
    (P : z3.BoolRef) (max_depth : Z) (strict : bool) :
  idempotent simp ->
  box simp (tn.Seq a b) P max_depth strict =
  (inner <- box simp b P max_depth strict ;; box simp a inner max_depth strict).
Proof.
  intros Hi. destruct (Z.ltb_spec max_depth 1) as [Hlt | Hge].
  - rewrite !box_depth_exceeded by assumption. simpl.
    now rewrite box_depth_exceeded.
  - rewrite (box_eq simp (tn.Seq a b)).
    destruct (Z.ltb_spec max_depth 1); [lia |].
    rewrite (box_flag_at_root simp b P max_depth strict true) by assumption.
    destruct (box simp b P max_depth true) as [inner | e]; simpl.
    + rewrite (box_flag_at_root simp a inner max_depth strict true) by assumption.
      now apply simplify_box.
    + reflexivity.
Qed.


(** ** Constant folding is a simplifier of the kind the properties ask for *)

Module FoldFacts.
Import Fold.

Lemma mkAdd_cases (a b : z3.ArithRef) :
  (exists v, mkAdd a b = z3.IntVal v) \/ mkAdd a b = z3.Add a b.
Proof. destruct a, b; simpl; eauto. Qed.

Lemma mkSub_cases (a b : z3.ArithRef) :
  (exists v, mkSub a b = z3.IntVal v) \/ mkSub a b = z3.Sub a b.
Proof. destruct a, b; simpl; eauto. Qed.

Lemma mkMul_cases (a b : z3.ArithRef) :
  (exists v, mkMul a b = z3.IntVal v) \/ mkMul a b = z3.Mul a b.
Proof. destruct a, b; simpl; eauto. Qed.

Lemma fold_arith_idem (t : z3.ArithRef) :
  fold_arith (fold_arith t) = fold_arith t.
Proof.
  induction t as [v | x | a IHa b IHb | a IHa b IHb | a IHa b IHb];
    cbn [fold_arith]; try reflexivity.
  - destruct (mkAdd_cases (fold_arith a) (fold_arith b)) as [[v ->] | H];
      [reflexivity |].
    rewrite H at 1. cbn [fold_arith]. now rewrite IHa, IHb.
  - destruct (mkSub_cases (fold_arith a) (fold_arith b)) as [[v ->] | H];
      [reflexivity |].
    rewrite H at 1. cbn [fold_arith]. now rewrite IHa, IHb.
  - destruct (mkMul_cases (fold_arith a) (fold_arith b)) as [[v ->] | H];
      [reflexivity |].
    rewrite H at 1. cbn [fold_arith]. now rewrite IHa, IHb.
Qed.

Lemma mkNot_cases (a : z3.BoolRef) :
  (exists v, mkNot a = z3.BoolVal v) \/ mkNot a = z3.Not a.
Proof. destruct a; simpl; eauto. Qed.

Lemma mkAnd_cases (a b : z3.BoolRef) :
  (exists v, mkAnd a b = z3.BoolVal v) \/ mkAnd a b = a \/ mkAnd a b = b
  \/ mkAnd a b = z3.And a b.
Proof. destruct a as [[] | | | | | |], b as [[] | | | | | |]; simpl; eauto. Qed.

Lemma mkOr_cases (a b : z3.BoolRef) :
  (exists v, mkOr a b = z3.BoolVal v) \/ mkOr a b = a \/ mkOr a b = b
  \/ mkOr a b = z3.Or a b.
Proof. destruct a as [[] | | | | | |], b as [[] | | | | | |]; simpl; eauto. Qed.

Lemma mkImplies_cases (a b : z3.BoolRef) :
  (exists v, mkImplies a b = z3.BoolVal v) \/ mkImplies a b = b
  \/ mkImplies a b = z3.Implies a b.
Proof. destruct a as [[] | | | | | |], b as [[] | | | | | |]; simpl; eauto. Qed.

Lemma mkEq_cases (a b : z3.ArithRef) :
  (exists v, mkEq a b = z3.BoolVal v) \/ mkEq a b = z3.Eq a b.
Proof. destruct a, b; simpl; eauto. Qed.

Lemma mkLt_cases (a b : z3.ArithRef) :
  (exists v, mkLt a b = z3.BoolVal v) \/ mkLt a b = z3.Lt a b.
Proof. destruct a, b; simpl; eauto. Qed.

Ltac fold_case H :=
  rewrite H at 1; cbn [fold]; rewrite ?fold_arith_idem; congruence.

Lemma fold_idempotent : idempotent fold.
Proof.
  intros f.
  induction f as [v | a IHa | a IHa b IHb | a IHa b IHb | a IHa b IHb | a b | a b];
    cbn [fold]; try reflexivity.
  - destruct (mkNot_cases (fold a)) as [[v ->] | H]; [reflexivity | fold_case H].
  - destruct (mkAnd_cases (fold a) (fold b)) as [[v ->] | [-> | [-> | H]]];
      [reflexivity | assumption | assumption | fold_case H].
  - destruct (mkOr_cases (fold a) (fold b)) as [[v ->] | [-> | [-> | H]]];
      [reflexivity | assumption | assumption | fold_case H].
  - destruct (mkImplies_cases (fold a) (fold b)) as [[v ->] | [-> | H]];
      [reflexivity | assumption | fold_case H].
  - destruct (mkEq_cases (fold_arith a) (fold_arith b)) as [[v ->] | H];
      [reflexivity | fold_case H].
  - destruct (mkLt_cases (fold_arith a) (fold_arith b)) as [[v ->] | H];
      [reflexivity | fold_case H].
Qed.

Lemma fold_arith_eval (I : z3.Interp) (t : z3.ArithRef) :
  z3.eval_arith I (fold_arith t) = z3.eval_arith I t.
Proof.
  induction t as [v | x | a IHa b IHb | a IHa b IHb | a IHa b IHb];
    cbn [fold_arith z3.eval_arith]; try reflexivity;
    rewrite <- IHa, <- IHb;
    destruct (fold_arith a), (fold_arith b); reflexivity.
Qed.

Lemma mkNot_eval (I : z3.Interp) (a : z3.BoolRef) :
  z3.eval I (mkNot a) = negb (z3.eval I a).
Proof. destruct a; reflexivity. Qed.

Lemma mkAnd_eval (I : z3.Interp) (a b : z3.BoolRef) :
  z3.eval I (mkAnd a b) = z3.eval I a && z3.eval I b.
Proof.
  destruct a as [[] | | | | | |], b as [[] | | | | | |];
    cbn [mkAnd z3.eval]; rewrite ?andb_true_r, ?andb_false_r; reflexivity.
Qed.

Lemma mkOr_eval (I : z3.Interp) (a b : z3.BoolRef) :
  z3.eval I (mkOr a b) = z3.eval I a || z3.eval I b.
Proof.
  destruct a as [[] | | | | | |], b as [[] | | | | | |];
    cbn [mkOr z3.eval]; rewrite ?orb_true_r, ?orb_false_r; reflexivity.
Qed.

Lemma implb_true_right (x : bool) : implb x true = true.
Proof. now destruct x. Qed.

Lemma mkImplies_eval (I : z3.Interp) (a b : z3.BoolRef) :
  z3.eval I (mkImplies a b) = implb (z3.eval I a) (z3.eval I b).
Proof.
  destruct a as [[] | | | | | |], b as [[] | | | | | |];
    cbn [mkImplies z3.eval implb]; rewrite ?implb_true_right; reflexivity.
Qed.

Lemma fold_equivalence_preserving : equivalence_preserving fold.
Proof.
  intros I f.
  induction f as [v | a IHa | a IHa b IHb | a IHa b IHb | a IHa b IHb | a b | a b];
    cbn [fold]; rewrite ?mkNot_eval, ?mkAnd_eval, ?mkOr_eval, ?mkImplies_eval;
    cbn [z3.eval]; try congruence.
  - rewrite <- (fold_arith_eval I a), <- (fold_arith_eval I b).
    destruct (fold_arith a), (fold_arith b); reflexivity.
  - rewrite <- (fold_arith_eval I a), <- (fold_arith_eval I b).
    destruct (fold_arith a), (fold_arith b); reflexivity.
Qed.

End FoldFacts.

(** ** The two solvers answer [unsat] only when it is right *)

Lemma closed_arith_eval (I J : z3.Interp) (t : z3.ArithRef) :
  z3.closed_arith t = true -> z3.eval_arith I t = z3.eval_arith J t.
Proof.
  induction t as [v | x | a IHa b IHb | a IHa b IHb | a IHa b IHb];
    simpl; intros H; try reflexivity; try discriminate;
    apply andb_true_iff in H as [Ha Hb]; now rewrite (IHa Ha), (IHb Hb).
Qed.

Lemma closed_eval (I J : z3.Interp) (f : z3.BoolRef) :
  z3.closed f = true -> z3.eval I f = z3.eval J f.
Proof.
  induction f as [v | a IHa | a IHa b IHb | a IHa b IHb | a IHa b IHb | a b | a b];
    simpl; intros H; try reflexivity.
  - now rewrite (IHa H).
  - apply andb_true_iff in H as [Ha Hb]. now rewrite (IHa Ha), (IHb Hb).
  - apply andb_true_iff in H as [Ha Hb]. now rewrite (IHa Ha), (IHb Hb).
  - apply andb_true_iff in H as [Ha Hb]. now rewrite (IHa Ha), (IHb Hb).
  - apply andb_true_iff in H as [Ha Hb].
    now rewrite (closed_arith_eval I J a Ha), (closed_arith_eval I J b Hb).
  - apply andb_true_iff in H as [Ha Hb].
    now rewrite (closed_arith_eval I J a Ha), (closed_arith_eval I J b Hb).
Qed.

Lemma closed_forallb_eval (I J : z3.Interp) (fs : list z3.BoolRef) :
  forallb z3.closed fs = true ->
  forallb (z3.eval I) fs = forallb (z3.eval J) fs.
Proof.
  induction fs as [| f fs IH]; simpl; intros H; [reflexivity |].
  apply andb_true_iff in H as [Hf Hfs].
  now rewrite (closed_eval I J f Hf), (IH Hfs).
Qed.

Lemma ground_check_sat_sound : unsat_sound ground_check_sat.
Proof.
  intros fs timeout H I. unfold ground_check_sat in H.
  destruct (forallb z3.closed fs) eqn:Hc; [| discriminate].
  destruct (forallb (z3.eval (fun _ => 0)) fs) eqn:He; [discriminate |].
  now rewrite (closed_forallb_eval I (fun _ => 0) fs Hc).
Qed.

Lemma timed_out_check_sat_sound : unsat_sound timed_out_check_sat.
Proof. intros fs timeout H. discriminate. Qed.

Lemma box_seq_witness :
  box Fold.fold (tn.Seq (tn.Asgn "x" (tn.Sum (tn.Var "x") (tn.Const 1))) tn.Skip)
    (z3.Lt (z3.IntVal 0) (z3.Int "x")) 2 true =
  (inner <- box Fold.fold tn.Skip (z3.Lt (z3.IntVal 0) (z3.Int "x")) 2 true ;;
   box Fold.fold (tn.Asgn "x" (tn.Sum (tn.Var "x") (tn.Const 1))) inner 2 true).
Proof.
  apply (box_seq Fold.fold). exact FoldFacts.fold_idempotent.
Defined.


(** ** Termination of [box] *)

Section box_termination.

Variable simp : z3.BoolRef -> z3.BoolRef.

Lemma height_positive (alpha : tn.Prog) : (1 <= tn.height alpha)%nat.
Proof. destruct alpha; simpl; lia. Qed.

(** One unfolding of [box_depth] with unrollings left. *)
Lemma box_depth_S (n : nat) (strict : bool) (alpha : tn.Prog) (P : z3.BoolRef) :
  box_depth simp (S n) strict alpha P =
  simplify simp
    match alpha with
    | tn.Skip => Return P
    | tn.Asgn name e =>
        Return (z3.substitute P [(term_enc (tn.Var name), term_enc e)])
    | tn.Seq alpha_p beta_p =>
        inner <- box_depth simp (S n) true beta_p P ;;
        box_depth simp (S n) true alpha_p inner
    | tn.If q alpha_p beta_p =>
        a <- box_depth simp (S n) true alpha_p P ;;
        b <- box_depth simp (S n) true beta_p P ;;
        Return (z3.And (z3.Implies (fmla_enc q) a)
                       (z3.Implies (fmla_enc (tn.NotF q)) b))
    | tn.While q alpha_p =>
        box_depth simp n true
          (tn.If q (tn.Seq alpha_p alpha) (tn.Asgn "x" (tn.Var "x"))) P
    | tn.Output e => Return P
    | tn.Abort => Return P
    | tn.Other repr => Raise (TypeError ("box got " ++ repr ++ ", not Prog"))
    end.
Proof. destruct alpha; reflexivity. Qed.

(** With a budget of three calls per unrolling plus the height of the
    program, the recursion of [box_fuel] reaches its end, and its result
    is that of [box_depth]. *)
Lemma box_fuel_box_depth (unrollings : nat) :
  forall (alpha : tn.Prog) (P : z3.BoolRef) (max_depth : Z) (strict : bool)
         (fuel : nat),
    Z.to_nat max_depth = unrollings ->
    (3 * unrollings + tn.height alpha <= fuel)%nat ->
    box_fuel simp fuel alpha P max_depth strict
    = Some (box_depth simp unrollings strict alpha P).
Proof.
  induction unrollings as [| n IHn]; intros alpha P d strict fuel Hd Hfuel.
  - pose proof (height_positive alpha).
    destruct fuel as [| fuel]; [lia |]. cbn [box_fuel box_depth].
    destruct (Z.ltb_spec d 1); [reflexivity | lia].
  - revert P strict fuel Hfuel.
    induction alpha as [| x e | a IHa b IHb | c a IHa b IHb | c a IHa | e | | r];
      intros P strict fuel Hfuel; (destruct fuel as [| fuel]; [simpl in Hfuel; lia |]);
      rewrite box_depth_S; cbn [box_fuel tn.height] in *;
      (destruct (Z.ltb_spec d 1); [lia |]);
      try reflexivity.
    + rewrite (IHb P true fuel) by lia.
      destruct (box_depth simp (S n) true b P) as [inner | ex];
        cbn [bind bind_fuel]; [| reflexivity].
      now rewrite (IHa inner true fuel) by lia.
    + rewrite (IHa P true fuel) by lia.
      destruct (box_depth simp (S n) true a P) as [ra | ex];
        cbn [bind bind_fuel]; [| reflexivity].
      rewrite (IHb P true fuel) by lia.
      destruct (box_depth simp (S n) true b P) as [rb | ex]; reflexivity.
    + rewrite (IHn _ P (d - 1) true fuel) by (cbn [tn.height]; lia).
      reflexivity.
Qed.

(** [box] is what [box_fuel] computes, whatever the outcome. *)
Lemma box_fuel_box (alpha : tn.Prog) (P : z3.BoolRef) (max_depth : Z)
    (strict : bool) (fuel : nat) :
  (3 * Z.to_nat max_depth + tn.height alpha <= fuel)%nat ->
  box_fuel simp fuel alpha P max_depth strict
  = Some (box simp alpha P max_depth strict).
Proof. intros H. now apply box_fuel_box_depth. Qed.

(** A program of the recognised node kinds raises nothing. *)
Lemma box_depth_returns (unrollings : nat) :
  forall (alpha : tn.Prog) (P : z3.BoolRef) (strict : bool),
    tn.is_prog alpha = true ->
    exists W, box_depth simp unrollings strict alpha P = Return W.
Proof.
  induction unrollings as [| n IHn]; intros alpha P strict Hp.
  - eexists. reflexivity.
  - revert P strict.
    induction alpha as [| x e | a IHa b IHb | c a IHa b IHb | c a IHa | e | | r];
      intros P strict; cbn [tn.is_prog] in Hp; try discriminate;
      rewrite box_depth_S; try (eexists; reflexivity).
    + apply andb_true_iff in Hp as [Ha Hb].
      destruct (IHb Hb P true) as [Q ->]. cbn [bind].
      destruct (IHa Ha Q true) as [W ->]. eexists. reflexivity.
    + apply andb_true_iff in Hp as [Ha Hb].
      destruct (IHa Ha P true) as [ra ->], (IHb Hb P true) as [rb ->].
      eexists. reflexivity.
    + destruct (IHn (tn.If c (tn.Seq a (tn.While c a)) (tn.Asgn "x" (tn.Var "x")))
                  P true) as [W ->].
      * cbn [tn.is_prog]. now rewrite Hp.
      * eexists. reflexivity.
Qed.

Lemma box_returns (alpha : tn.Prog) (P : z3.BoolRef) (max_depth : Z) (strict : bool) :
  tn.is_prog alpha = true ->
  exists W, box simp alpha P max_depth strict = Return W.
Proof. apply box_depth_returns. Qed.

End box_termination.

(** C7, with the bound the code meets.  On a program of the recognised
    node kinds [box] returns a formula, for every postcondition and every
    [maxDepth]: a recursion depth of [3 * maxDepth] plus the height of
    the program is enough (each unrolling nests three calls: the [While],
    the [If] it is turned into, and the [Seq] in its then-branch).  The
    result is a [z3.BoolRef], a type with no program node in it. *)
Theorem box_terminates (simp : z3.BoolRef -> z3.BoolRef) (alpha : tn.Prog)
    (P : z3.BoolRef) (max_depth : Z) (strict : bool) (fuel : nat) :
  tn.is_prog alpha = true ->
  (3 * Z.to_nat max_depth + tn.height alpha <= fuel)%nat ->
  exists W : z3.BoolRef,
    box_fuel simp fuel alpha P max_depth strict = Some (Return W) /\
    box simp alpha P max_depth strict = Return W.
Proof.
  intros Hp Hfuel.
  destruct (box_returns simp alpha P max_depth strict Hp) as [W HW].
  exists W. split; [| exact HW].
  now rewrite box_fuel_box, HW.
Qed.

Lemma box_terminates_witness :
  exists W : z3.BoolRef,
    box_fuel Fold.fold 11 (tn.While tn.TrueC tn.Skip) (z3.BoolVal true) 3 true
    = Some (Return W) /\
    box Fold.fold (tn.While tn.TrueC tn.Skip) (z3.BoolVal true) 3 true = Return W.
Proof.
  apply (box_terminates Fold.fold (tn.While tn.TrueC tn.Skip) (z3.BoolVal true)
           3 true 11); [reflexivity | simpl; lia].
Defined.

(** C7 as stated fails in its bound: on [while (true) skip] with
    [maxDepth = 3] a recursion depth of [maxDepth] plus the height of the
    program (5) is not enough, nor is 7; the calls nest 8 deep. *)
Lemma box_recursion_depth_counterexample :
  box_fuel Fold.fold (Z.to_nat 3 + tn.height (tn.While tn.TrueC tn.Skip))
    (tn.While tn.TrueC tn.Skip) (z3.BoolVal true) 3 true = None /\
  box_fuel Fold.fold 7 (tn.While tn.TrueC tn.Skip) (z3.BoolVal true) 3 true = None /\
  box_fuel Fold.fold 8 (tn.While tn.TrueC tn.Skip) (z3.BoolVal true) 3 true
  = Some (Return (z3.BoolVal false)).
Proof. repeat split. Qed.

(** ** The meaning of substitution *)

Lemma substitute_arith_eval (I : z3.Interp) (x : string) (e t : z3.ArithRef) :
  z3.eval_arith I (z3.substitute_arith t [(z3.Int x, e)])
  = z3.eval_arith (z3.update I x (z3.eval_arith I e)) t.
Proof.
  induction t as [v | y | a IHa b IHb | a IHa b IHb | a IHa b IHb];
    cbn [z3.substitute_arith z3.replacement];
    match goal with
    | |- context [z3.ArithRef_eq_dec ?u ?w] =>
        destruct (z3.ArithRef_eq_dec u w) as [Heq | Hne]
    end; try discriminate; cbn [z3.eval_arith]; try congruence.
  - injection Heq as ->. unfold z3.update.
    now destruct (string_dec x x).
  - unfold z3.update. destruct (string_dec y x) as [-> | _]; [now destruct Hne |].
    reflexivity.
Qed.

Lemma substitute_eval (I : z3.Interp) (x : string) (e : z3.ArithRef) (P : z3.BoolRef) :
  z3.eval I (z3.substitute P [(z3.Int x, e)])
  = z3.eval (z3.update I x (z3.eval_arith I e)) P.
Proof.
  induction P; cbn [z3.substitute z3.eval];
    rewrite ?substitute_arith_eval; congruence.
Qed.

(** ** The bounded check *)

Section check_properties.

Variable simp : z3.BoolRef -> z3.BoolRef.
Variable solver : list z3.BoolRef -> Z -> z3.CheckSatResult * option ModelRef.

(** The verdict as a function of the solver's status. *)
Lemma symbolic_check_eq (alpha : tn.Prog) (step_bound max_depth timeout : Z)
    (W : z3.BoolRef) :
  box simp (instrument alpha step_bound) counter_not_negative max_depth true
  = Return W ->
  symbolic_check simp solver alpha step_bound max_depth timeout =
  Return match fst (solver [z3.Not W] timeout) with
         | z3.unsat => Satisfies
         | _ => Violates
         end.
Proof.
  intros HW. unfold symbolic_check. fold counter_not_negative.
  rewrite HW. cbn [bind].
  destruct (solver [z3.Not W] timeout) as [[] model]; reflexivity.
Qed.

(** The weakest precondition of the instrumented [skip] under a budget
    of zero steps holds in no state. *)
Lemma box_instrumented_skip_unsatisfiable (max_depth : Z) :
  equivalence_preserving simp ->
  exists W,
    box simp (instrument tn.Skip 0) counter_not_negative max_depth true = Return W /\
    forall I, z3.eval I W = false.
Proof.
  intros Hs. destruct (Z.ltb_spec max_depth 1) as [Hlt | Hge].
  - eexists. split; [now apply box_depth_exceeded |].
    intros I. now rewrite Hs.
  - assert (Hd : (max_depth <? 1) = false) by (apply Z.ltb_ge; lia).
    unfold instrument, add_instrumentation, ins_to_add.
    eexists. split.
    + repeat (rewrite box_eq, Hd; cbn [bind simplify]). reflexivity.
    + intros I. cbn [term_enc].
      repeat (rewrite ?Hs, ?substitute_eval).
      reflexivity.
Qed.

End check_properties.

(** C9.  With a simplifier that keeps the value of formulas and a solver
    whose [unsat] answers are right, [symbolic_check] of [skip] with step
    bound [0] is [Violates], for every [maxDepth] and timeout: the
    weakest precondition holds in no state, so its negation holds in
    every state. *)
Theorem symbolic_check_skip_zero
    (simp : z3.BoolRef -> z3.BoolRef)
    (solver : list z3.BoolRef -> Z -> z3.CheckSatResult * option ModelRef)
    (max_depth timeout : Z) :
  equivalence_preserving simp ->
  unsat_sound solver ->
  symbolic_check simp solver tn.Skip 0 max_depth timeout = Return Violates /\
  exists W,
    box simp (instrument tn.Skip 0) counter_not_negative max_depth true = Return W /\
    (forall I, z3.eval I W = false) /\
    (forall I, z3.eval I (z3.Not W) = true).
Proof.
  intros Hs Hsolver.
  destruct (box_instrumented_skip_unsatisfiable simp max_depth Hs) as [W [HW Hun]].
  split.
  - rewrite (symbolic_check_eq simp solver _ _ _ _ W HW).
    destruct (fst (solver [z3.Not W] timeout)) eqn:Hres; try reflexivity.
    pose proof (Hsolver _ _ Hres (fun _ => 0)) as Hfalse.
    cbn [forallb z3.eval] in Hfalse. rewrite Hun in Hfalse. discriminate.
  - exists W. repeat split; try assumption.
    intros I. cbn [z3.eval]. now rewrite Hun.
Qed.

Lemma symbolic_check_skip_zero_witness :
  symbolic_check Fold.fold ground_check_sat tn.Skip 0 3 1 = Return Violates /\
  exists W,
    box Fold.fold (instrument tn.Skip 0) counter_not_negative 3 true = Return W /\
    (forall I, z3.eval I W = false) /\
    (forall I, z3.eval I (z3.Not W) = true).
Proof.
  apply (symbolic_check_skip_zero Fold.fold ground_check_sat 3 1).
  - exact FoldFacts.fold_equivalence_preserving.
  - exact ground_check_sat_sound.
Defined.

(** C10.  On a program of the recognised node kinds [symbolic_check]
    returns [Satisfies] when the solver answers [unsat] and [Violates]
    on every other answer, [unknown] included; it never returns
    [Unknown]. *)
Theorem symbolic_check_never_unknown
    (simp : z3.BoolRef -> z3.BoolRef)
    (solver : list z3.BoolRef -> Z -> z3.CheckSatResult * option ModelRef)
    (alpha : tn.Prog) (step_bound max_depth timeout : Z) :
  tn.is_prog alpha = true ->
  exists W,
    box simp (instrument alpha step_bound) counter_not_negative max_depth true
    = Return W /\
    symbolic_check simp solver alpha step_bound max_depth timeout =
    Return (match fst (solver [z3.Not W] timeout) with
            | z3.unsat => Satisfies
            | z3.sat | z3.unknown => Violates
            end) /\
    (symbolic_check simp solver alpha step_bound max_depth timeout = Return Satisfies \/
     symbolic_check simp solver alpha step_bound max_depth timeout = Return Violates) /\
    symbolic_check simp solver alpha step_bound max_depth timeout <> Return Unknown.
Proof.
  intros Hp.
  destruct (box_returns simp (instrument alpha step_bound) counter_not_negative
              max_depth true) as [W HW].
  { now rewrite instrument_is_prog. }
  exists W. split; [exact HW |].
  rewrite (symbolic_check_eq simp solver _ _ _ _ W HW).
  split; [reflexivity |].
  destruct (fst (solver [z3.Not W] timeout)); split; auto; discriminate.
Qed.

Lemma symbolic_check_never_unknown_witness :
  exists W,
    box Fold.fold (instrument (tn.While tn.TrueC tn.Skip) 5) counter_not_negative 1 true
    = Return W /\
    symbolic_check Fold.fold timed_out_check_sat (tn.While tn.TrueC tn.Skip) 5 1 1 =
    Return (match fst (timed_out_check_sat [z3.Not W] 1) with
            | z3.unsat => Satisfies
            | z3.sat | z3.unknown => Violates
            end) /\
    (symbolic_check Fold.fold timed_out_check_sat (tn.While tn.TrueC tn.Skip) 5 1 1
       = Return Satisfies \/
     symbolic_check Fold.fold timed_out_check_sat (tn.While tn.TrueC tn.Skip) 5 1 1
       = Return Violates) /\
    symbolic_check Fold.fold timed_out_check_sat (tn.While tn.TrueC tn.Skip) 5 1 1
      <> Return Unknown.
Proof.
  apply (symbolic_check_never_unknown Fold.fold timed_out_check_sat
           (tn.While tn.TrueC tn.Skip) 5 1 1).
  reflexivity.
Defined.

(** C1, on the code.  When the status of the solver call is [unknown],
    which is also what a timeout gives, [symbolic_check] returns
    [Violates], not [Unknown]. *)
Theorem symbolic_check_unknown_status
    (simp : z3.BoolRef -> z3.BoolRef)
    (solver : list z3.BoolRef -> Z -> z3.CheckSatResult * option ModelRef)
    (alpha : tn.Prog) (step_bound max_depth timeout : Z) :
  check_status simp solver alpha step_bound max_depth timeout = Return z3.unknown ->
  symbolic_check simp solver alpha step_bound max_depth timeout = Return Violates /\
  symbolic_check simp solver alpha step_bound max_depth timeout <> Return Unknown.
Proof.
  unfold check_status. intros Hres.
  destruct (box simp (instrument alpha step_bound) counter_not_negative
              max_depth true) as [W | e] eqn:HW; [| discriminate].
  cbn [bind] in Hres. injection Hres as Hres.
  rewrite (symbolic_check_eq simp solver _ _ _ _ W HW), Hres.
  split; [reflexivity | discriminate].
Qed.

Lemma symbolic_check_unknown_status_witness :
  symbolic_check Fold.fold ground_check_sat three_cubes 1 3 1 = Return Violates /\
  symbolic_check Fold.fold ground_check_sat three_cubes 1 3 1 <> Return Unknown.
Proof.
  apply (symbolic_check_unknown_status Fold.fold ground_check_sat three_cubes 1 3 1).
  reflexivity.
Defined.

(** ** The instrumented program against the original *)

Lemma exc_eq (fuel : nat) (alpha : tn.Prog) (state : State) :
  exc fuel alpha state =
  if aborted state then Some state
  else
    match alpha with
    | tn.Skip => Some (tick state)
    | tn.Asgn name e =>
        Some (tick (assign name (eval_term (variables state) e) state))
    | tn.Output e =>
        Some (tick (emit (eval_term (variables state) e) state))
    | tn.Abort => Some (tick (abort state))
    | tn.Seq alpha_p beta_p =>
        match exc fuel alpha_p state with
        | Some state' => exc fuel beta_p state'
        | None => None
        end
    | tn.If p alpha_p beta_p =>
        if eval_fmla (variables state) p then exc fuel alpha_p state
        else exc fuel beta_p state
    | tn.While q alpha_p =>
        if eval_fmla (variables state) q then
          match fuel with
          | O => None
          | S fuel' =>
              match exc fuel alpha_p state with
              | Some state' => exc fuel' alpha state'
              | None => None
              end
          end
        else Some state
    | tn.Other _ => None
    end.
Proof. destruct fuel, alpha; reflexivity. Qed.

Lemma eval_term_agree (I I' : string -> Z) (e : tn.Term) :
  term_mentions STEPS_LEFT e = false ->
  (forall x, x <> STEPS_LEFT -> I' x = I x) ->
  eval_term I' e = eval_term I e.
Proof.
  intros Hm HI.
  induction e as [v | y | l IHl r IHr | l IHl r IHr | l IHl r IHr];
    cbn [eval_term term_mentions] in *; try reflexivity;
    try (apply orb_false_iff in Hm as [Hl Hr]; now rewrite (IHl Hl), (IHr Hr)).
  destruct (string_dec y STEPS_LEFT); [discriminate | now apply HI].
Qed.

Lemma eval_fmla_agree (I I' : string -> Z) (p : tn.Formula) :
  fmla_mentions STEPS_LEFT p = false ->
  (forall x, x <> STEPS_LEFT -> I' x = I x) ->
  eval_fmla I' p = eval_fmla I p.
Proof.
  intros Hm HI.
  induction p as [| | q IHq | a IHa b IHb | a IHa b IHb | a IHa b IHb | l r | l r];
    cbn [eval_fmla fmla_mentions] in *; try reflexivity;
    try (apply orb_false_iff in Hm as [Ha Hb]).
  - now rewrite IHq.
  - now rewrite (IHa Ha), (IHb Hb).
  - now rewrite (IHa Ha), (IHb Hb).
  - now rewrite (IHa Ha), (IHb Hb).
  - now rewrite (eval_term_agree I I' l Ha HI), (eval_term_agree I I' r Hb HI).
  - now rewrite (eval_term_agree I I' l Ha HI), (eval_term_agree I I' r Hb HI).
Qed.

(** The decrement the pass puts before a leaf, run in a state that is
    not aborted. *)
Lemma exc_decrement (fuel : nat) (s' : State) :
  aborted s' = false ->
  exc fuel ins_to_add s'
  = Some (tick (assign STEPS_LEFT (variables s' STEPS_LEFT - 1) s')).
Proof.
  intros Ha. rewrite exc_eq, Ha. reflexivity.
Qed.

Lemma agree_after_decrement (k : Z) (s s' : State) :
  agree_off_counter k s s' ->
  let s1 := tick (assign STEPS_LEFT (variables s' STEPS_LEFT - 1) s') in
  (forall x, x <> STEPS_LEFT -> variables s1 x = variables s x) /\
  output s1 = output s /\
  aborted s1 = aborted s /\
  variables s1 STEPS_LEFT = k - Z.of_nat (S (steps s)).
Proof.
  intros (Hv & Ho & Ha & Hc). cbn. unfold z3.update. repeat split.
  - intros x Hx. destruct (string_dec x STEPS_LEFT); [contradiction | now apply Hv].
  - assumption.
  - assumption.
  - destruct (string_dec STEPS_LEFT STEPS_LEFT); [lia | contradiction].
Qed.

Lemma runs_agree_aborted (k : Z) (s s' : State) :
  agree_off_counter k s s' ->
  aborted s = true ->
  runs_agree k (Some s) (Some s').
Proof. intros H _. exact H. Qed.

(** A leaf that does not write the counter, after the decrement. *)
Lemma exc_leaf_instrumented (fuel : nat) (k : Z) (leaf : tn.Prog) (s s' : State) :
  tn.is_leaf leaf = true ->
  mentions STEPS_LEFT leaf = false ->
  agree_off_counter k s s' ->
  runs_agree k (exc fuel leaf s) (exc fuel (tn.Seq ins_to_add leaf) s').
Proof.
  intros Hleaf Hm Hag.
  pose proof Hag as (Hv & Ho & Ha & Hc).
  rewrite (exc_eq fuel (tn.Seq _ _)), (exc_eq fuel leaf s), Ha.
  destruct (aborted s) eqn:Hab; [exact Hag |].
  rewrite exc_decrement by congruence.
  pose proof (agree_after_decrement k s s' Hag) as H1. cbv zeta in H1.
  set (s1 := tick (assign STEPS_LEFT (variables s' STEPS_LEFT - 1) s')) in *.
  clearbody s1. destruct H1 as (Hv1 & Ho1 & Ha1 & Hc1).
  rewrite exc_eq, Ha1, Hab.
  destruct leaf as [| x e | | | | e | |]; try discriminate;
    cbn [mentions] in Hm; cbn [runs_agree]; unfold agree_off_counter.
  - cbn. repeat split; assumption.
  - apply orb_false_iff in Hm as [Hx He].
    destruct (string_dec x STEPS_LEFT) as [| Hne]; [discriminate |].
    rewrite (eval_term_agree (variables s) (variables s1) e He Hv1).
    cbn. unfold z3.update. repeat split; try assumption.
    + intros y Hy. destruct (string_dec y x); [reflexivity | now apply Hv1].
    + destruct (string_dec STEPS_LEFT x) as [E |]; [now destruct Hne | assumption].
  - rewrite (eval_term_agree (variables s) (variables s1) e Hm Hv1).
    cbn. repeat split; try assumption. now rewrite Ho1.
  - cbn. repeat split; assumption.
Qed.

Lemma exc_instrumented (step_bound : Z) (fuel : nat) :
  forall (alpha : tn.Prog) (k : Z) (s s' : State),
    mentions STEPS_LEFT alpha = false ->
    agree_off_counter k s s' ->
    runs_agree k (exc fuel alpha s)
      (exc fuel (add_instrumentation alpha step_bound) s').
Proof.
  induction fuel as [fuel IHfuel] using lt_wf_ind.
  induction alpha as [| x e | a IHa b IHb | c a IHa b IHb | c a IHa | e | | r];
    intros k s s' Hm Hag; cbn [add_instrumentation];
    try (now apply exc_leaf_instrumented).
  - cbn [mentions] in Hm. apply orb_false_iff in Hm as [Hma Hmb].
    rewrite (exc_eq fuel (tn.Seq _ _) s), (exc_eq fuel (tn.Seq _ _) s').
    pose proof Hag as (_ & _ & Ha & _). rewrite Ha.
    destruct (aborted s); [exact Hag |].
    pose proof (IHa k s s' Hma Hag) as Hfirst.
    destruct (exc fuel a s) as [t |], (exc fuel (add_instrumentation a step_bound) s')
      as [t' |]; cbn [runs_agree] in Hfirst; try contradiction; [| exact I].
    now apply IHb.
  - cbn [mentions] in Hm. apply orb_false_iff in Hm as [Hm Hmb].
    apply orb_false_iff in Hm as [Hmc Hma].
    rewrite (exc_eq fuel (tn.If _ _ _) s), (exc_eq fuel (tn.If _ _ _) s').
    pose proof Hag as (Hv & _ & Ha & _). rewrite Ha.
    destruct (aborted s); [exact Hag |].
    rewrite (eval_fmla_agree (variables s) (variables s') c Hmc Hv).
    destruct (eval_fmla (variables s) c); [now apply IHa | now apply IHb].
  - cbn [mentions] in Hm. apply orb_false_iff in Hm as [Hmc Hma].
    rewrite (exc_eq fuel (tn.While _ _) s), (exc_eq fuel (tn.While _ _) s').
    pose proof Hag as (Hv & _ & Ha & _). rewrite Ha.
    destruct (aborted s); [exact Hag |].
    rewrite (eval_fmla_agree (variables s) (variables s') c Hmc Hv).
    destruct (eval_fmla (variables s) c); [| exact Hag].
    destruct fuel as [| fuel']; [exact I |].
    pose proof (IHa k s s' Hma Hag) as Hfirst.
    destruct (exc (S fuel') a s) as [t |],
      (exc (S fuel') (add_instrumentation a step_bound) s') as [t' |];
      cbn [runs_agree] in Hfirst; try contradiction; [| exact I].
    apply (IHfuel fuel' (Nat.lt_succ_diag_r fuel') (tn.While c a) k t t').
    + cbn [mentions]. now rewrite Hmc, Hma.
    + assumption.
  - rewrite !exc_eq. pose proof Hag as (_ & _ & Ha & _). rewrite Ha.
    destruct (aborted s); [exact Hag | exact I].
Qed.

(** C5.  For a program that does not mention the counter, the original
    and the instrumented program, run from the same variables, both end
    or both do not; when they end, every variable other than the counter
    has the same value in both, so do the output and the abort flag, and
    the counter holds the step bound less the number of leaf statements
    the original program executed. *)
Theorem instrument_observationally_equivalent (alpha : tn.Prog) (step_bound : Z)
    (fuel : nat) (vars : string -> Z) :
  mentions STEPS_LEFT alpha = false ->
  match exc fuel alpha (initial vars),
        exc fuel (instrument alpha step_bound) (initial vars) with
  | Some r, Some r' =>
      (forall x, x <> STEPS_LEFT -> variables r' x = variables r x) /\
      output r' = output r /\
      aborted r' = aborted r /\
      variables r' STEPS_LEFT = step_bound - Z.of_nat (steps r)
  | None, None => True
  | _, _ => False
  end.
Proof.
  intros Hm. unfold instrument.
  rewrite (exc_eq fuel (tn.Seq _ _)). cbn [initial aborted].
  rewrite (exc_eq fuel (tn.Asgn _ _)). cbn [aborted eval_term].
  apply (exc_instrumented step_bound fuel alpha step_bound); [assumption |].
  unfold agree_off_counter. cbn. unfold z3.update. repeat split.
  - intros x Hx. now destruct (string_dec x STEPS_LEFT).
  - destruct (string_dec STEPS_LEFT STEPS_LEFT); [lia | contradiction].
Qed.

Lemma instrument_observationally_equivalent_witness :
  match exc 10 countdown (initial (fun _ => 0)),
        exc 10 (instrument countdown 100) (initial (fun _ => 0)) with
  | Some r, Some r' =>
      (forall x, x <> STEPS_LEFT -> variables r' x = variables r x) /\
      output r' = output r /\
      aborted r' = aborted r /\
      variables r' STEPS_LEFT = 100 - Z.of_nat (steps r)
  | None, None => True
  | _, _ => False
  end.
Proof.
  apply (instrument_observationally_equivalent countdown 100 10 (fun _ => 0)).
  reflexivity.
Defined.

(** The run behind the witness: the original program executes four leaf
    statements and leaves [x = 0]; the instrumented one leaves the
    counter at [96]. *)
Example countdown_runs :
  option_map (fun s => (variables s "x", steps s))
    (exc 10 countdown (initial (fun _ => 0))) = Some (0, 4%nat) /\
  option_map (fun s => (variables s "x", variables s STEPS_LEFT))
    (exc 10 (instrument countdown 100) (initial (fun _ => 0))) = Some (0, 96).
Proof. split; reflexivity. Qed.

(** ** What the check needs of the simplifier *)

(** Keeping satisfiability is not enough for the verdict on [skip] with
    step bound [0]: [forgetful_simplify] keeps it, is idempotent, and
    turns the verdict into [Satisfies].  The check needs a simplifier
    that keeps the value of a formula in every state. *)
Lemma forgetful_simplify_keeps_satisfiability (f : z3.BoolRef) :
  satisfiable (forgetful_simplify f) <-> satisfiable f.
Proof.
  unfold forgetful_simplify.
  destruct (z3.BoolRef_eq_dec f counter_not_negative) as [-> | _]; [| reflexivity].
  split; intros _; exists (fun _ => 0); reflexivity.
Qed.

Lemma forgetful_simplify_idempotent : idempotent forgetful_simplify.
Proof.
  intros f. unfold forgetful_simplify at 2.
  destruct (z3.BoolRef_eq_dec f counter_not_negative) as [-> | Hne].
  - reflexivity.
  - unfold forgetful_simplify.
    now destruct (z3.BoolRef_eq_dec f counter_not_negative).
Qed.

Example forgetful_simplify_skip_zero :
  symbolic_check forgetful_simplify ground_check_sat tn.Skip 0 3 1
  = Return Satisfies.
Proof. vm_compute. reflexivity. Qed.

(** ** Runs of the check *)

(** With constant folding and the ground solver: [while (true) skip]
    under a budget of five steps and one unrolling violates the bound;
    the countdown from three under a budget of a hundred steps is within
    the bound once five unrollings are allowed, and counts as violating
    with four, where the last test of the loop condition falls on the
    exhausted budget. *)
Example symbolic_check_runs :
  symbolic_check Fold.fold ground_check_sat (tn.While tn.TrueC tn.Skip) 5 1 1
  = Return Violates /\
  symbolic_check Fold.fold ground_check_sat countdown 100 5 1 = Return Satisfies /\
  symbolic_check Fold.fold ground_check_sat countdown 100 4 1 = Return Violates /\
  symbolic_check Fold.fold ground_check_sat tn.Skip 1 3 1 = Return Satisfies.
Proof. repeat split; vm_compute; reflexivity. Qed.

(** * Further properties of the code *)

(** ** [box] against the bounded runs *)

Lemma unroll_S (n : nat) (alpha : tn.Prog) (st : z3.Interp * nat) :
  unroll (S n) alpha st =
  match alpha with
  | tn.Skip | tn.Output _ | tn.Abort => Some (fst st, S (snd st))
  | tn.Asgn name e =>
      Some (z3.update (fst st) name (z3.eval_arith (fst st) (term_enc e)),
            S (snd st))
  | tn.Seq alpha_p beta_p =>
      match unroll (S n) alpha_p st with
      | Some st' => unroll (S n) beta_p st'
      | None => None
      end
  | tn.If q alpha_p beta_p =>
      if z3.eval (fst st) (fmla_enc q) then unroll (S n) alpha_p st
      else unroll (S n) beta_p st
  | tn.While q alpha_p =>
      match n with
      | O => None
      | S _ =>
          if z3.eval (fst st) (fmla_enc q) then
            match unroll n alpha_p st with
            | Some st' => unroll n alpha st'
            | None => None
            end
          else Some st
      end
  | tn.Other _ => None
  end.
Proof. destruct alpha; reflexivity. Qed.

Lemma eval_arith_ext (I J : z3.Interp) (t : z3.ArithRef) :
  (forall x, I x = J x) -> z3.eval_arith I t = z3.eval_arith J t.
Proof.
  intros H. induction t; cbn [z3.eval_arith]; congruence.
Qed.

Lemma eval_ext (I J : z3.Interp) (f : z3.BoolRef) :
  (forall x, I x = J x) -> z3.eval I f = z3.eval J f.
Proof.
  intros H. induction f; cbn [z3.eval];
    rewrite ?(eval_arith_ext I J) by assumption; congruence.
Qed.

Lemma update_same (I : z3.Interp) (x y : string) :
  z3.update I x (I x) y = I y.
Proof. unfold z3.update. now destruct (string_dec y x) as [-> |]. Qed.

Section box_semantics.

Variable simp : z3.BoolRef -> z3.BoolRef.
Hypothesis simp_sound : equivalence_preserving simp.

Lemma eval_depth_exceeded (I : z3.Interp) (strict : bool) :
  z3.eval I (simp (depth_exceeded strict)) = negb strict.
Proof. rewrite simp_sound. now destruct strict. Qed.

(** The loop axiom on the side of the runs: the [If] that [box] unrolls
    a loop into gives a postcondition the value the loop gives it. *)
Lemma holds_after_unrolled (n : nat) (strict : bool) (q : tn.Formula)
    (a : tn.Prog) (P : z3.BoolRef) (st : z3.Interp * nat) :
  holds_after strict P
    (unroll n (tn.If q (tn.Seq a (tn.While q a)) (tn.Asgn "x" (tn.Var "x"))) st)
  = holds_after strict P (unroll (S n) (tn.While q a) st).
Proof.
  rewrite (unroll_S n (tn.While q a)).
  destruct n as [| k]; [reflexivity |].
  rewrite (unroll_S k (tn.If _ _ _)), (unroll_S k (tn.Seq _ _)).
  destruct (z3.eval (fst st) (fmla_enc q)); [reflexivity |].
  rewrite unroll_S. cbn [holds_after fst term_enc z3.eval_arith].
  apply eval_ext. intros y. apply update_same.
Qed.

Lemma box_depth_holds_after (n : nat) :
  forall (alpha : tn.Prog) (P W : z3.BoolRef),
    box_depth simp n true alpha P = Return W ->
    forall st, z3.eval (fst st) W = holds_after true P (unroll n alpha st).
Proof.
  induction n as [| n IHn]; intros alpha P W HW st.
  - cbn [box_depth simplify bind] in HW. injection HW as <-.
    exact (eval_depth_exceeded (fst st) true).
  - revert P W HW st.
    induction alpha as [| x e | a IHa b IHb | c a IHa b IHb | c a IHa | e | | r];
      intros P W HW st; rewrite box_depth_S in HW; rewrite unroll_S;
      cbn [simplify bind] in HW.
    + injection HW as <-. now rewrite simp_sound.
    + injection HW as <-. cbn [term_enc]. now rewrite simp_sound, substitute_eval.
    + destruct (box_depth simp (S n) true b P) as [Q |] eqn:Hb;
        cbn [bind] in HW; [| discriminate].
      destruct (box_depth simp (S n) true a Q) as [W' |] eqn:Ha;
        cbn [bind] in HW; [| discriminate].
      injection HW as <-. rewrite simp_sound, (IHa Q W' Ha st).
      destruct (unroll (S n) a st) as [st' |]; cbn [holds_after]; [| reflexivity].
      apply (IHb P Q Hb).
    + destruct (box_depth simp (S n) true a P) as [A |] eqn:Ha;
        cbn [bind] in HW; [| discriminate].
      destruct (box_depth simp (S n) true b P) as [B |] eqn:Hb;
        cbn [bind] in HW; [| discriminate].
      injection HW as <-. rewrite simp_sound. cbn [z3.eval fmla_enc].
      rewrite (IHa P A Ha st), (IHb P B Hb st).
      destruct (z3.eval (fst st) (fmla_enc c)); cbn [negb implb andb];
        [apply andb_true_r | reflexivity].
    + destruct (box_depth simp n true
                  (tn.If c (tn.Seq a (tn.While c a)) (tn.Asgn "x" (tn.Var "x"))) P)
        as [W' |] eqn:Hw; cbn [bind] in HW; [| discriminate].
      injection HW as <-. rewrite simp_sound, (IHn _ P W' Hw st).
      rewrite holds_after_unrolled. now rewrite unroll_S.
    + injection HW as <-. now rewrite simp_sound.
    + injection HW as <-. now rewrite simp_sound.
    + discriminate.
Qed.

(** The flag counts only in a call that starts without a budget: from a
    depth of [1] on, a run that exhausts the budget gives [False]. *)
Lemma box_holds_after (alpha : tn.Prog) (P W : z3.BoolRef) (max_depth : Z)
    (strict : bool) (I : z3.Interp) (m : nat) :
  box simp alpha P max_depth strict = Return W ->
  z3.eval I W =
  holds_after (strict || (1 <=? max_depth)) P
    (unroll (Z.to_nat max_depth) alpha (I, m)).
Proof.
  intros HW. destruct (Z.leb_spec 1 max_depth) as [Hge | Hlt].
  - rewrite orb_true_r.
    rewrite (box_flag_at_root simp alpha P max_depth strict true Hge) in HW.
    exact (box_depth_holds_after (Z.to_nat max_depth) alpha P W HW (I, m)).
  - rewrite orb_false_r. rewrite box_depth_exceeded in HW by assumption.
    injection HW as <-.
    replace (Z.to_nat max_depth) with 0%nat by lia.
    apply eval_depth_exceeded.
Qed.

End box_semantics.

(** More budget keeps the result of a run that had enough. *)
Lemma unroll_S_budget (n : nat) :
  forall (alpha : tn.Prog) (st r : z3.Interp * nat),
    unroll n alpha st = Some r -> unroll (S n) alpha st = Some r.
Proof.
  induction n as [| n IHn]; intros alpha st r H; [discriminate |].
  revert st r H.
  induction alpha as [| x e | a IHa b IHb | c a IHa b IHb | c a IHa | e | | u];
    intros st r H; rewrite unroll_S in H; rewrite unroll_S; try assumption.
  - destruct (unroll (S n) a st) as [st' |] eqn:Ha; [| discriminate].
    rewrite (IHa st st' Ha). now apply IHb.
  - destruct (z3.eval (fst st) (fmla_enc c)); [now apply IHa | now apply IHb].
  - destruct n as [| k]; [discriminate |].
    destruct (z3.eval (fst st) (fmla_enc c)); [| assumption].
    destruct (unroll (S k) a st) as [st' |] eqn:Ha; [| discriminate].
    rewrite (IHn a st st' Ha). now apply IHn.
Qed.

Lemma unroll_le_budget (n m : nat) (alpha : tn.Prog) (st r : z3.Interp * nat) :
  (n <= m)%nat -> unroll n alpha st = Some r -> unroll m alpha st = Some r.
Proof.
  intros Hle H. induction Hle as [| m Hle IH]; [assumption |].
  now apply unroll_S_budget.
Qed.



(** X2.  A larger unrolling depth weakens the formula: a state that
    satisfies the formula at depth [d] satisfies it at every depth
    above, for a strict call from any depth and for a lenient call from
    depth [1] on (a lenient call below depth [1] returns [True]). *)
Theorem box_depth_monotone (simp : z3.BoolRef -> z3.BoolRef)
    (alpha : tn.Prog) (P W W' : z3.BoolRef) (d d' : Z) (strict : bool)
    (I : z3.Interp) :
  equivalence_preserving simp ->
  d <= d' ->
  strict = true \/ 1 <= d ->
  box simp alpha P d strict = Return W ->
  box simp alpha P d' strict = Return W' ->
  z3.eval I W = true ->
  z3.eval I W' = true.
Proof.
  intros Hs Hd Hflag HW HW'.
  rewrite (box_holds_after simp Hs alpha P W d strict I 0%nat HW).
  rewrite (box_holds_after simp Hs alpha P W' d' strict I 0%nat HW').
  assert (Hle : (Z.to_nat d <= Z.to_nat d')%nat) by lia.
  destruct (unroll (Z.to_nat d) alpha (I, 0%nat)) as [r |] eqn:Hr.
  - now rewrite (unroll_le_budget _ _ alpha (I, 0%nat) r Hle Hr).
  - cbn [holds_after].
    assert (Heff : strict || (1 <=? d) = true).
    { destruct Hflag as [-> | Hge]; [reflexivity |].
      apply orb_true_iff. right. now apply Z.leb_le. }
    rewrite Heff. discriminate.
Qed.

Lemma box_depth_monotone_witness :
  z3.eval (fun _ => 0)
    (z3.Implies (z3.Lt (z3.IntVal 0) (z3.Int "x"))
       (z3.Implies (z3.Lt (z3.IntVal 0) (z3.Int "x")) (z3.BoolVal false))) = true.
Proof.
  apply (box_depth_monotone Fold.fold
           (tn.While (tn.LtF (tn.Const 0) (tn.Var "x")) tn.Skip)
           (z3.BoolVal true)
           (z3.Implies (z3.Lt (z3.IntVal 0) (z3.Int "x")) (z3.BoolVal false))
           _ 2 3 false (fun _ => 0)).
  - exact FoldFacts.fold_equivalence_preserving.
  - lia.
  - right. lia.
  - reflexivity.
  - reflexivity.
  - reflexivity.
Defined.

(** X3.  The strictness flag has no effect from a depth of [1] on: the
    recursive calls do not pass it, so a lenient call returns the
    formula of the strict one, and the formula of a loop that exhausts
    the budget is [False] also with [depth_exceed_strict=False].  The
    flag decides the result only of a call with [max_depth < 1]. *)
Theorem box_strict_flag_only_at_root (simp : z3.BoolRef -> z3.BoolRef)
    (alpha : tn.Prog) (P : z3.BoolRef) (max_depth : Z) (strict : bool) :
  box simp alpha P max_depth strict =
  if max_depth <? 1 then Return (simp (depth_exceeded strict))
  else box simp alpha P max_depth true.
Proof.
  destruct (Z.ltb_spec max_depth 1) as [Hlt | Hge].
  - now apply box_depth_exceeded.
  - now apply box_flag_at_root.
Qed.

(** A lenient call for a loop with [max_depth = 1] returns [False],
    where a lenient call for its unrolling with [max_depth = 0] returns
    [True]: the unrolling is called with the default flag. *)
Example box_while_lenient_root :
  box Fold.fold (tn.While tn.TrueC tn.Skip) (z3.BoolVal true) 1 false
  = Return (z3.BoolVal false) /\
  box Fold.fold
    (tn.If tn.TrueC (tn.Seq tn.Skip (tn.While tn.TrueC tn.Skip)) tn.Skip)
    (z3.BoolVal true) 0 false
  = Return (z3.BoolVal true).
Proof. split; reflexivity. Qed.

(** ** The unrolling depth and the nodes that are no program *)

Lemma box_loop_free (simp : z3.BoolRef -> z3.BoolRef) (alpha : tn.Prog) :
  loop_free alpha = true ->
  forall (P : z3.BoolRef) (d d' : Z) (strict strict' : bool),
    1 <= d -> 1 <= d' ->
    box simp alpha P d strict = box simp alpha P d' strict'.
Proof.
  intros Hl.
  induction alpha as [| x e | a IHa b IHb | c a IHa b IHb | c a IHa | e | | r];
    intros P d d' strict strict' Hd Hd'; cbn [loop_free] in Hl;
    try discriminate; rewrite (box_eq simp _ P d), (box_eq simp _ P d');
    (destruct (Z.ltb_spec d 1); [lia |]); (destruct (Z.ltb_spec d' 1); [lia |]);
    try reflexivity.
  - apply andb_true_iff in Hl as [Ha Hb].
    rewrite (IHb Hb P d d' true true) by assumption.
    destruct (box simp b P d' true) as [Q |]; cbn [bind]; [| reflexivity].
    now rewrite (IHa Ha Q d d' true true).
  - apply andb_true_iff in Hl as [Ha Hb].
    rewrite (IHa Ha P d d' true true), (IHb Hb P d d' true true)
      by assumption.
    reflexivity.
Qed.

(** X4.  On a program without loops neither the unrolling depth, from
    [1] on, nor the strictness flag has any effect on what [box]
    returns. *)
Theorem box_loop_free_depth_irrelevant (simp : z3.BoolRef -> z3.BoolRef)
    (alpha : tn.Prog) (P : z3.BoolRef) (d d' : Z) (strict strict' : bool) :
  loop_free alpha = true ->
  1 <= d ->
  1 <= d' ->
  box simp alpha P d strict = box simp alpha P d' strict'.
Proof. intros Hl Hd Hd'. now apply box_loop_free. Qed.

Lemma box_loop_free_depth_irrelevant_witness :
  box Fold.fold
    (tn.If (tn.LtF (tn.Const 0) (tn.Var "x")) (tn.Asgn "y" (tn.Var "x")) tn.Abort)
    (z3.Lt (z3.IntVal 0) (z3.Int "y")) 1 true =
  box Fold.fold
    (tn.If (tn.LtF (tn.Const 0) (tn.Var "x")) (tn.Asgn "y" (tn.Var "x")) tn.Abort)
    (z3.Lt (z3.IntVal 0) (z3.Int "y")) 10 false.
Proof.
  apply (box_loop_free_depth_irrelevant Fold.fold); [reflexivity | lia | lia].
Defined.

(** X6.  [box] raises [TypeError] only when the program holds a node of
    no recognised kind and the unrolling depth is at least [1]; with a
    depth below [1] it returns the constant before it looks at the
    node. *)
Theorem box_raises_only_on_unrecognized (simp : z3.BoolRef -> z3.BoolRef)
    (alpha : tn.Prog) (P : z3.BoolRef) (max_depth : Z) (strict : bool)
    (e : exception) :
  box simp alpha P max_depth strict = Raise e ->
  tn.is_prog alpha = false /\ 1 <= max_depth.
Proof.
  intros H. split.
  - destruct (tn.is_prog alpha) eqn:Hp; [| reflexivity].
    destruct (box_returns simp alpha P max_depth strict Hp) as [W HW].
    congruence.
  - destruct (Z.ltb_spec max_depth 1) as [Hlt |]; [| assumption].
    rewrite box_depth_exceeded in H by assumption. discriminate.
Qed.

Lemma box_raises_only_on_unrecognized_witness :
  tn.is_prog (tn.Seq tn.Skip (tn.Other "Const(1)")) = false /\ 1 <= 2.
Proof.
  apply (box_raises_only_on_unrecognized Fold.fold
           (tn.Seq tn.Skip (tn.Other "Const(1)")) (z3.BoolVal true) 2 true
           (TypeError "box got Const(1), not Prog")).
  reflexivity.
Defined.

(** ** The instrumented program in the bounded runs *)

Lemma term_enc_agree (I I' : z3.Interp) (e : tn.Term) :
  term_mentions STEPS_LEFT e = false ->
  (forall x, x <> STEPS_LEFT -> I' x = I x) ->
  z3.eval_arith I' (term_enc e) = z3.eval_arith I (term_enc e).
Proof.
  intros Hm HI.
  induction e as [v | y | l IHl r IHr | l IHl r IHr | l IHl r IHr];
    cbn [term_enc z3.eval_arith term_mentions] in *; try reflexivity;
    try (apply orb_false_iff in Hm as [Hl Hr]; now rewrite (IHl Hl), (IHr Hr)).
  destruct (string_dec y STEPS_LEFT); [discriminate | now apply HI].
Qed.

Lemma fmla_enc_agree (I I' : z3.Interp) (p : tn.Formula) :
  fmla_mentions STEPS_LEFT p = false ->
  (forall x, x <> STEPS_LEFT -> I' x = I x) ->
  z3.eval I' (fmla_enc p) = z3.eval I (fmla_enc p).
Proof.
  intros Hm HI.
  induction p as [| | q IHq | a IHa b IHb | a IHa b IHb | a IHa b IHb | l r | l r];
    cbn [fmla_enc z3.eval fmla_mentions] in *; try reflexivity;
    try (apply orb_false_iff in Hm as [Ha Hb]).
  - now rewrite IHq.
  - now rewrite (IHa Ha), (IHb Hb).
  - now rewrite (IHa Ha), (IHb Hb).
  - now rewrite (IHa Ha), (IHb Hb).
  - now rewrite (term_enc_agree I I' l Ha HI), (term_enc_agree I I' r Hb HI).
  - now rewrite (term_enc_agree I I' l Ha HI), (term_enc_agree I I' r Hb HI).
Qed.

Lemma unroll_leaf_instrumented (n : nat) (k : Z) (leaf : tn.Prog)
    (st st' : z3.Interp * nat) :
  tn.is_leaf leaf = true ->
  mentions STEPS_LEFT leaf = false ->
  counter_tracks k st st' ->
  runs_track k (unroll (S n) leaf st) (unroll (S n) (tn.Seq ins_to_add leaf) st').
Proof.
  intros Hleaf Hm (Hv & Hc).
  rewrite (unroll_S n (tn.Seq _ _)), (unroll_S n ins_to_add).
  unfold ins_to_add. cbn [term_enc z3.eval_arith snd fst].
  set (I1 := z3.update (fst st') STEPS_LEFT (fst st' STEPS_LEFT - 1)).
  assert (Hv1 : forall x, x <> STEPS_LEFT -> I1 x = fst st x).
  { intros x Hx. unfold I1, z3.update.
    destruct (string_dec x STEPS_LEFT); [contradiction | now apply Hv]. }
  assert (Hc1 : I1 STEPS_LEFT = k - Z.of_nat (S (snd st))).
  { unfold I1, z3.update.
    destruct (string_dec STEPS_LEFT STEPS_LEFT); [lia | contradiction]. }
  clearbody I1.
  destruct leaf as [| x e | | | | e | |]; try discriminate;
    rewrite !unroll_S; cbn [mentions] in Hm;
    cbn [runs_track fst snd]; unfold counter_tracks; cbn [fst snd];
    try (split; assumption).
  apply orb_false_iff in Hm as [Hx He].
  destruct (string_dec x STEPS_LEFT) as [| Hne]; [discriminate |].
  rewrite (term_enc_agree (fst st) I1 e He Hv1). unfold z3.update. split.
  - intros y Hy. destruct (string_dec y x); [reflexivity | now apply Hv1].
  - destruct (string_dec STEPS_LEFT x) as [E |]; [now destruct Hne | assumption].
Qed.

(** The run of the instrumented program follows the run of the original
    one, and its counter goes down by one for every leaf statement the
    original passes. *)
Lemma unroll_instrumented (step_bound : Z) (n : nat) :
  forall (alpha : tn.Prog) (k : Z) (st st' : z3.Interp * nat),
    mentions STEPS_LEFT alpha = false ->
    counter_tracks k st st' ->
    runs_track k (unroll n alpha st)
      (unroll n (add_instrumentation alpha step_bound) st').
Proof.
  induction n as [| n IHn]; [intros; exact I |].
  induction alpha as [| x e | a IHa b IHb | c a IHa b IHb | c a IHa | e | | r];
    intros k st st' Hm Htr; cbn [add_instrumentation];
    try (now apply unroll_leaf_instrumented).
  - cbn [mentions] in Hm. apply orb_false_iff in Hm as [Hma Hmb].
    rewrite (unroll_S n (tn.Seq a b)), (unroll_S n (tn.Seq _ _)).
    pose proof (IHa k st st' Hma Htr) as Hfirst.
    destruct (unroll (S n) a st) as [t |],
      (unroll (S n) (add_instrumentation a step_bound) st') as [t' |];
      cbn [runs_track] in Hfirst; try contradiction; [| exact I].
    now apply IHb.
  - cbn [mentions] in Hm. apply orb_false_iff in Hm as [Hm Hmb].
    apply orb_false_iff in Hm as [Hmc Hma].
    rewrite (unroll_S n (tn.If c a b)), (unroll_S n (tn.If _ _ _)).
    pose proof Htr as (Hv & _).
    rewrite (fmla_enc_agree (fst st) (fst st') c Hmc Hv).
    destruct (z3.eval (fst st) (fmla_enc c)); [now apply IHa | now apply IHb].
  - cbn [mentions] in Hm. apply orb_false_iff in Hm as [Hmc Hma].
    rewrite (unroll_S n (tn.While c a)), (unroll_S n (tn.While _ _)).
    destruct n as [| n']; [exact I |].
    pose proof Htr as (Hv & _).
    rewrite (fmla_enc_agree (fst st) (fst st') c Hmc Hv).
    destruct (z3.eval (fst st) (fmla_enc c)); [| exact Htr].
    pose proof (IHn a k st st' Hma Htr) as Hfirst.
    destruct (unroll (S n') a st) as [t |],
      (unroll (S n') (add_instrumentation a step_bound) st') as [t' |];
      cbn [runs_track] in Hfirst; try contradiction; [| exact I].
    apply (IHn (tn.While c a) k t t'); [| assumption].
    cbn [mentions]. now rewrite Hmc, Hma.
  - rewrite !unroll_S. exact I.
Qed.

(** The run of [instrument alpha step_bound] from a state: the counter
    is set, then the instrumented program runs. *)
Lemma unroll_instrument (step_bound : Z) (n : nat) (alpha : tn.Prog)
    (I : z3.Interp) :
  mentions STEPS_LEFT alpha = false ->
  runs_track step_bound (unroll n alpha (I, 0%nat))
    (unroll n (instrument alpha step_bound) (I, 0%nat)).
Proof.
  intros Hm. destruct n as [| n]; [exact Logic.I |].
  unfold instrument. rewrite (unroll_S n (tn.Seq _ _)), (unroll_S n (tn.Asgn _ _)).
  apply unroll_instrumented; [assumption |].
  split; cbn [fst snd term_enc z3.eval_arith]; unfold z3.update.
  - intros x Hx. now destruct (string_dec x STEPS_LEFT).
  - destruct (string_dec STEPS_LEFT STEPS_LEFT); [lia | contradiction].
Qed.

(** ** What the verdicts of the check mean *)

Section verdicts.

Variable simp : z3.BoolRef -> z3.BoolRef.
Variable solver : list z3.BoolRef -> Z -> z3.CheckSatResult * option ModelRef.
Hypothesis simp_sound : equivalence_preserving simp.
Hypothesis solver_sound : unsat_sound solver.

(** Behind a verdict [Satisfies] there is a formula that holds in every
    state. *)
Lemma symbolic_check_satisfies_valid (alpha : tn.Prog)
    (step_bound max_depth timeout : Z) :
  symbolic_check simp solver alpha step_bound max_depth timeout = Return Satisfies ->
  exists W,
    box simp (instrument alpha step_bound) counter_not_negative max_depth true
    = Return W /\
    forall I, z3.eval I W = true.
Proof.
  intros H.
  destruct (box simp (instrument alpha step_bound) counter_not_negative max_depth true)
    as [W | e] eqn:HW.
  - exists W. split; [reflexivity |]. intros I.
    rewrite (symbolic_check_eq simp solver _ _ _ _ W HW) in H.
    destruct (fst (solver [z3.Not W] timeout)) eqn:Hres; try discriminate.
    pose proof (solver_sound _ _ Hres I) as Hf.
    cbn [forallb z3.eval] in Hf. rewrite andb_true_r in Hf.
    now apply negb_false_iff.
  - unfold symbolic_check in H. fold counter_not_negative in H.
    rewrite HW in H. discriminate.
Qed.

(** A state in which the formula fails decides the verdict. *)
Lemma symbolic_check_refuted (alpha : tn.Prog) (step_bound max_depth timeout : Z)
    (W : z3.BoolRef) (I : z3.Interp) :
  box simp (instrument alpha step_bound) counter_not_negative max_depth true
  = Return W ->
  z3.eval I W = false ->
  symbolic_check simp solver alpha step_bound max_depth timeout = Return Violates.
Proof.
  intros HW Hf.
  rewrite (symbolic_check_eq simp solver _ _ _ _ W HW).
  destruct (fst (solver [z3.Not W] timeout)) eqn:Hres; try reflexivity.
  pose proof (solver_sound _ _ Hres I) as Hs.
  cbn [forallb z3.eval] in Hs. rewrite Hf in Hs. discriminate.
Qed.

(** The value of the formula of the check in a state, read off the run
    of the original program. *)
Lemma check_formula_value (alpha : tn.Prog) (step_bound max_depth : Z)
    (W : z3.BoolRef) (I : z3.Interp) :
  mentions STEPS_LEFT alpha = false ->
  box simp (instrument alpha step_bound) counter_not_negative max_depth true
  = Return W ->
  z3.eval I W =
  match unroll (Z.to_nat max_depth) alpha (I, 0%nat) with
  | Some (_, m) => Z.of_nat m <=? step_bound
  | None => false
  end.
Proof.
  intros Hm HW.
  rewrite (box_holds_after simp simp_sound _ _ W max_depth true I 0%nat HW).
  pose proof (unroll_instrument step_bound (Z.to_nat max_depth) alpha I Hm) as Htr.
  destruct (unroll (Z.to_nat max_depth) alpha (I, 0%nat)) as [[J m] |],
    (unroll (Z.to_nat max_depth) (instrument alpha step_bound) (I, 0%nat))
      as [[J' m'] |]; cbn [runs_track] in Htr; try contradiction;
    [| reflexivity].
  destruct Htr as (_ & Hc). cbn [fst snd] in Hc.
  cbn [holds_after fst counter_not_negative fmla_enc term_enc z3.eval z3.eval_arith].
  rewrite Hc. destruct (Z.leb_spec (Z.of_nat m) step_bound);
    [apply Z.ltb_lt | apply Z.ltb_ge]; lia.
Qed.

End verdicts.

(** X7.  [Satisfies] is sound: with a simplifier that keeps the value
    of formulas and a solver whose [unsat] answers are right, when
    [symbolic_check] returns [Satisfies] for a program that does not
    mention the counter, the run from every initial state ends within
    the unrolling budget and passes at most [step_bound] leaf
    statements. *)
Theorem symbolic_check_satisfies_sound
    (simp : z3.BoolRef -> z3.BoolRef)
    (solver : list z3.BoolRef -> Z -> z3.CheckSatResult * option ModelRef)
    (alpha : tn.Prog) (step_bound max_depth timeout : Z) (I : z3.Interp) :
  equivalence_preserving simp ->
  unsat_sound solver ->
  mentions STEPS_LEFT alpha = false ->
  symbolic_check simp solver alpha step_bound max_depth timeout = Return Satisfies ->
  exists J m,
    unroll (Z.to_nat max_depth) alpha (I, 0%nat) = Some (J, m) /\
    Z.of_nat m <= step_bound.
Proof.
  intros Hs Hsolver Hm Hsat.
  destruct (symbolic_check_satisfies_valid simp solver Hsolver _ _ _ _ Hsat)
    as [W [HW Hvalid]].
  pose proof (check_formula_value simp Hs alpha step_bound max_depth W I Hm HW) as Hv.
  rewrite Hvalid in Hv.
  destruct (unroll (Z.to_nat max_depth) alpha (I, 0%nat)) as [[J m] |];
    [| discriminate].
  exists J, m. split; [reflexivity |]. apply Z.leb_le. now symmetry.
Qed.

Lemma symbolic_check_satisfies_sound_witness :
  exists J m,
    unroll (Z.to_nat 5) countdown (fun _ => 7, 0%nat) = Some (J, m) /\
    Z.of_nat m <= 100.
Proof.
  apply (symbolic_check_satisfies_sound Fold.fold ground_check_sat countdown
           100 5 1 (fun _ => 7)).
  - exact FoldFacts.fold_equivalence_preserving.
  - exact ground_check_sat_sound.
  - reflexivity.
  - vm_compute. reflexivity.
Defined.

(** X8.  An overrun is never missed: under the same assumptions, when
    from some state the run of a program of the recognised node kinds
    passes more than [step_bound] leaf statements, or does not end
    within the unrolling budget, [symbolic_check] returns [Violates]. *)
Theorem symbolic_check_violates_on_overrun
    (simp : z3.BoolRef -> z3.BoolRef)
    (solver : list z3.BoolRef -> Z -> z3.CheckSatResult * option ModelRef)
    (alpha : tn.Prog) (step_bound max_depth timeout : Z) (I : z3.Interp) :
  equivalence_preserving simp ->
  unsat_sound solver ->
  tn.is_prog alpha = true ->
  mentions STEPS_LEFT alpha = false ->
  match unroll (Z.to_nat max_depth) alpha (I, 0%nat) with
  | Some (_, m) => step_bound < Z.of_nat m
  | None => True
  end ->
  symbolic_check simp solver alpha step_bound max_depth timeout = Return Violates.
Proof.
  intros Hs Hsolver Hp Hm Hrun.
  destruct (box_returns simp (instrument alpha step_bound) counter_not_negative
              max_depth true) as [W HW].
  { now rewrite instrument_is_prog. }
  apply (symbolic_check_refuted simp solver Hsolver _ _ _ _ W I HW).
  rewrite (check_formula_value simp Hs alpha step_bound max_depth W I Hm HW).
  destruct (unroll (Z.to_nat max_depth) alpha (I, 0%nat)) as [[J m] |];
    [| reflexivity].
  apply Z.leb_gt. exact Hrun.
Qed.

Lemma symbolic_check_violates_on_overrun_witness :
  symbolic_check Fold.fold ground_check_sat countdown 3 5 1 = Return Violates.
Proof.
  apply (symbolic_check_violates_on_overrun Fold.fold ground_check_sat countdown
           3 5 1 (fun _ => 0)).
  - exact FoldFacts.fold_equivalence_preserving.
  - exact ground_check_sat_sound.
  - reflexivity.
  - reflexivity.
  - vm_compute. reflexivity.
Defined.

(** X9.  Without an unrolling budget the verdict is [Violates] for
    every argument, a node that is no program included: with
    [max_depth < 1] the formula is the constant [False]. *)
Theorem symbolic_check_no_budget
    (simp : z3.BoolRef -> z3.BoolRef)
    (solver : list z3.BoolRef -> Z -> z3.CheckSatResult * option ModelRef)
    (alpha : tn.Prog) (step_bound max_depth timeout : Z) :
  equivalence_preserving simp ->
  unsat_sound solver ->
  max_depth < 1 ->
  symbolic_check simp solver alpha step_bound max_depth timeout = Return Violates.
Proof.
  intros Hs Hsolver Hd.
  apply (symbolic_check_refuted simp solver Hsolver _ _ _ _
           (simp (depth_exceeded true)) (fun _ => 0)).
  - now apply box_depth_exceeded.
  - now rewrite Hs.
Qed.

Lemma symbolic_check_no_budget_witness :
  symbolic_check Fold.fold ground_check_sat (tn.Other "Const(1)") 100 0 1
  = Return Violates.
Proof.
  apply (symbolic_check_no_budget Fold.fold ground_check_sat).
  - exact FoldFacts.fold_equivalence_preserving.
  - exact ground_check_sat_sound.
  - lia.
Defined.

(** X5.  With [max_depth = 1] a loop is never entered: the formula of a
    loop is the constant [False], simplified twice, whatever its
    condition, body and postcondition and whatever the strictness flag,
    and the verdict on a program that is a loop is [Violates] for every
    step bound, also when the loop would not run at all. *)
Theorem symbolic_check_loop_depth_one
    (simp : z3.BoolRef -> z3.BoolRef)
    (solver : list z3.BoolRef -> Z -> z3.CheckSatResult * option ModelRef)
    (q : tn.Formula) (a : tn.Prog) (P : z3.BoolRef) (strict : bool)
    (step_bound timeout : Z) :
  equivalence_preserving simp ->
  unsat_sound solver ->
  box simp (tn.While q a) P 1 strict = Return (simp (simp (z3.BoolVal false))) /\
  symbolic_check simp solver (tn.While q a) step_bound 1 timeout = Return Violates.
Proof.
  intros Hs Hsolver. split; [reflexivity |].
  eapply (symbolic_check_refuted simp solver Hsolver _ _ _ _ _ (fun _ => 0)).
  - reflexivity.
  - cbn [term_enc]. repeat (rewrite ?Hs, ?substitute_eval). reflexivity.
Qed.

Lemma symbolic_check_loop_depth_one_witness :
  box Fold.fold (tn.While tn.FalseC tn.Skip) (z3.BoolVal true) 1 false
  = Return (Fold.fold (Fold.fold (z3.BoolVal false))) /\
  symbolic_check Fold.fold ground_check_sat (tn.While tn.FalseC tn.Skip) 100 1 1
  = Return Violates.
Proof.
  apply (symbolic_check_loop_depth_one Fold.fold ground_check_sat).
  - exact FoldFacts.fold_equivalence_preserving.
  - exact ground_check_sat_sound.
Defined.

Lemma add_instrumentation_loop_free (alpha : tn.Prog) (step_bound : Z) :
  loop_free (add_instrumentation alpha step_bound) = loop_free alpha.
Proof.
  induction alpha; cbn [add_instrumentation loop_free ins_to_add];
    try reflexivity; congruence.
Qed.

(** X10.  On a program without loops the verdict does not depend on the
    unrolling depth, from [1] on. *)
Theorem symbolic_check_loop_free_depth_irrelevant
    (simp : z3.BoolRef -> z3.BoolRef)
    (solver : list z3.BoolRef -> Z -> z3.CheckSatResult * option ModelRef)
    (alpha : tn.Prog) (step_bound d d' timeout : Z) :
  loop_free alpha = true ->
  1 <= d ->
  1 <= d' ->
  symbolic_check simp solver alpha step_bound d timeout
  = symbolic_check simp solver alpha step_bound d' timeout.
Proof.
  intros Hl Hd Hd'. unfold symbolic_check.
  rewrite (box_loop_free simp (instrument alpha step_bound)) with (d' := d')
    (strict' := true); try assumption; [reflexivity |].
  unfold instrument. cbn [loop_free].
  now rewrite add_instrumentation_loop_free.
Qed.

Lemma symbolic_check_loop_free_depth_irrelevant_witness :
  symbolic_check Fold.fold ground_check_sat (tn.Seq tn.Skip tn.Abort) 1 1 1
  = symbolic_check Fold.fold ground_check_sat (tn.Seq tn.Skip tn.Abort) 1 10 1.
Proof.
  apply (symbolic_check_loop_free_depth_irrelevant Fold.fold ground_check_sat);
    [reflexivity | lia | lia].
Defined.

(** ** The cost of the instrumented program *)

Lemma add_instrumentation_height (alpha : tn.Prog) (step_bound : Z) :
  (tn.height (add_instrumentation alpha step_bound) <= S (tn.height alpha))%nat.
Proof.
  induction alpha; cbn [add_instrumentation tn.height ins_to_add]; lia.
Qed.

(** X11.  The pass ignores the step bound, puts exactly one decrement
    before every leaf statement, so that the leaf statements double, and
    adds no loop and at most one level to the tree; hence the recursion
    of [box] on [instrument alpha n] ends within a depth of
    [3 * max_depth] plus the height of [alpha] plus two. *)
Theorem instrument_cost (simp : z3.BoolRef -> z3.BoolRef) (alpha : tn.Prog)
    (n n' : Z) (P : z3.BoolRef) (max_depth : Z) (strict : bool) :
  add_instrumentation alpha n = add_instrumentation alpha n' /\
  leaves (add_instrumentation alpha n) = (2 * leaves alpha)%nat /\
  loops (add_instrumentation alpha n) = loops alpha /\
  box_fuel simp (3 * Z.to_nat max_depth + tn.height alpha + 2)
    (instrument alpha n) P max_depth strict
  = Some (box simp (instrument alpha n) P max_depth strict).
Proof.
  repeat split.
  - induction alpha; cbn [add_instrumentation]; congruence.
  - induction alpha; cbn [add_instrumentation leaves ins_to_add]; lia.
  - induction alpha; cbn [add_instrumentation loops ins_to_add]; lia.
  - apply box_fuel_box. unfold instrument. cbn [tn.height].
    pose proof (add_instrumentation_height alpha n). lia.
Qed.

(** ** The script *)

Lemma symbolic_check_result (simp : z3.BoolRef -> z3.BoolRef)
    (solver : list z3.BoolRef -> Z -> z3.CheckSatResult * option ModelRef)
    (alpha : tn.Prog) (step_bound max_depth timeout : Z) (res : Result) :
  symbolic_check simp solver alpha step_bound max_depth timeout = Return res ->
  res = Satisfies \/ res = Violates.
Proof.
  unfold symbolic_check.
  destruct (box simp (instrument alpha step_bound) _ max_depth true) as [W | e];
    cbn [bind]; [| discriminate].
  destruct (solver [z3.Not W] timeout) as [[] model]; intros [= <-]; auto.
Qed.

Section script_properties.

Variable simp : z3.BoolRef -> z3.BoolRef.
Variable solver : list z3.BoolRef -> Z -> z3.CheckSatResult * option ModelRef.
Variable parse : string -> outcome tn.Prog.

Lemma count_file_tally (tally tally' : Tally) (test_file : string * string) :
  count_file simp solver parse tally test_file = Return tally' ->
  unknown tally' = unknown tally /\
  (passed tally' + violate tally'
   = passed tally + violate tally + (if is_test test_file then 1 else 0))%nat.
Proof.
  unfold count_file, is_test.
  destruct (endswith (fst test_file) "tinyscript"); cbn [negb].
  - destruct (parse (snd test_file)) as [prog | e]; cbn [bind]; [| discriminate].
    destruct (symbolic_check simp solver prog 100 3 1) as [res | e] eqn:Hres;
      cbn [bind]; [| discriminate].
    destruct (symbolic_check_result simp solver prog 100 3 1 res Hres) as [-> | ->];
      intros [= <-]; cbn; split; lia.
  - intros [= <-]. split; lia.
Qed.

Lemma count_files_tally (files : list (string * string)) :
  forall tally tally',
    count_files simp solver parse tally files = Return tally' ->
    unknown tally' = unknown tally /\
    (passed tally' + violate tally'
     = passed tally + violate tally + length (filter is_test files))%nat.
Proof.
  induction files as [| test_file rest IH]; intros tally tally' H.
  - injection H as <-. cbn. split; lia.
  - cbn [count_files] in H.
    destruct (count_file simp solver parse tally test_file) as [t1 | e] eqn:H1;
      cbn [bind] in H; [| discriminate].
    destruct (count_file_tally tally t1 test_file H1) as [Hu Hc].
    destruct (IH t1 tally' H) as [Hu' Hc'].
    cbn [filter]. destruct (is_test test_file); cbn [length]; split; lia.
Qed.

End script_properties.

(** X12.  When the script gets through a directory, its count of
    [Unknown] verdicts is zero, and the counts of [Satisfies] and
    [Violates] add up to the number of entries whose path ends in
    [tinyscript]; the other entries are not counted at all. *)
Theorem main_tally (simp : z3.BoolRef -> z3.BoolRef)
    (solver : list z3.BoolRef -> Z -> z3.CheckSatResult * option ModelRef)
    (parse : string -> outcome tn.Prog) (files : list (string * string))
    (tally : Tally) :
  main simp solver parse files = Return tally ->
  unknown tally = 0%nat /\
  (passed tally + violate tally
   = length (filter (fun test_file => endswith (fst test_file) "tinyscript") files))%nat.
Proof.
  intros H. destruct (count_files_tally simp solver parse files _ _ H) as [Hu Hc].
  cbn in Hu, Hc. split; [assumption |]. exact Hc.
Qed.

Lemma main_tally_witness :
  unknown (mkTally 1 1 0) = 0%nat /\
  (passed (mkTally 1 1 0) + violate (mkTally 1 1 0)
   = length (filter (fun test_file => endswith (fst test_file) "tinyscript")
               [("test/a.tinyscript", "skip"); ("test/README.md", "");
                ("test/b.tinyscript", "loop")]))%nat.
Proof.
  apply (main_tally Fold.fold ground_check_sat
           (fun text => if String.eqb text "skip" then Return tn.Skip
                        else Return (tn.While tn.TrueC tn.Skip))).
  vm_compute. reflexivity.
Defined.
